(** * The transportation-problem solver of [transport_ro.py]

    [TransportApp.solve_transport] reads three Qt tables (costs, supplies,
    demands), builds the linear program

      minimise    sum_ij couts[i][j] * x[i,j]
      subject to  sum_j x[i,j] <= offres[i]     for every source i
                  sum_i x[i,j] >= demandes[j]   for every destination j
                  x[i,j] >= 0                   (Gurobi's default lower bound)

    hands it to Gurobi and, when the status is [GRB.OPTIMAL], writes the
    objective value and the allocation into the result widgets.

    Conventions of the embedding.
    - Python floats are idealised as exact rationals [Q]; Gurobi's numerical
      tolerances are not modelled, and neither are [inf] and [nan].
    - Python's built-in [float()] and gurobipy are external to the
      repository: they are Section variables, and every statement says which
      behaviour of the optimiser it relies on.  gurobipy may raise in any of
      its calls, those that build the model as well as [m.optimize()].
    - Qt's table widget is modelled as far as the program uses it: [item]
      checks both indexes, [setItem] only the place in the vector of items.
    - Exceptions are values of [exn] in an error monad; the widgets and the
      trace of outside effects (optimiser calls, message boxes) are threaded
      explicitly. *)

From Stdlib Require Import QArith Qround Qabs Lqa.
From Stdlib Require Import Ascii.
From stdpp Require Import gmap strings list pretty.

Local Open Scope Q_scope.

(** ** Exceptions *)

Inductive exn : Type :=
| ValueError (text : string)   (* float(text) rejected its argument *)
| IndexError                   (* list index out of range *)
| GurobiError (msg : string).  (* raised inside gurobipy *)

Inductive result (A : Type) : Type :=
| Ok (a : A)
| Raise (e : exn).
Arguments Ok {A} a.
Arguments Raise {A} e.

#[global] Instance result_ret : MRet result := λ A a, Ok a.
#[global] Instance result_bind : MBind result :=
  λ A B f r, match r with Ok a => f a | Raise e => Raise e end.

(** [l[i]] on a Python list. *)
Definition idx {A : Type} (l : list A) (i : nat) : result A :=
  match l !! i with
  | Some a => Ok a
  | None => Raise IndexError
  end.

(** ** Qt widgets *)

(** A [QTableWidget]: its dimensions and the texts of the items that have been
    set.  Text alignment and headers are presentation and are left out. *)
Record QTableWidget : Type := mkTable {
  rowCount : nat;
  columnCount : nat;
  items : gmap (nat * nat) string
}.

Definition in_range (t : QTableWidget) (i j : nat) : bool :=
  (i <? rowCount t)%nat && (j <? columnCount t)%nat.

(** [table.item(i, j)]: [None] when no item was set or the index is outside
    the table. *)
Definition item (t : QTableWidget) (i j : nat) : option string :=
  if in_range t i j then items t !! (i, j) else None.

(** [QTableModel::tableIndex]: the place of a cell in the vector that holds
    the items row after row. *)
Definition tableIndex (t : QTableWidget) (i j : nat) : nat :=
  (i * columnCount t + j)%nat.

(** The cell whose item [setItem(i, j, ...)] replaces.  Qt tests the place
    in the vector only, not the two indexes: a place past the end is
    ignored (so is every index in a table without cells), and a column past
    the last one with a place inside the vector lands in a later row. *)
Definition place (t : QTableWidget) (i j : nat) : option (nat * nat) :=
  let k := tableIndex t i j in
  if (k <? rowCount t * columnCount t)%nat
  then Some ((k / columnCount t)%nat, (k mod columnCount t)%nat)
  else None.

(** [table.setItem(i, j, QTableWidgetItem(text))] *)
Definition setItem (t : QTableWidget) (i j : nat) (text : string) : QTableWidget :=
  match place t i j with
  | Some c => mkTable (rowCount t) (columnCount t) (<[c := text]> (items t))
  | None => t
  end.

Record TransportApp : Type := mkApp {
  cost_table : QTableWidget;
  offre_table : QTableWidget;
  demande_table : QTableWidget;
  result_table : QTableWidget;
  result_label : string
}.

(** ** The Gurobi model *)

(** A key [(i, j)] of the dict [x]; linear expressions refer to the
    variable [x[i, j]] by its key. *)
Definition Var : Type := (nat * nat)%type.

(** [GRB.CONTINUOUS], [GRB.BINARY], [GRB.INTEGER] *)
Inductive VarType : Type := CONTINUOUS | BINARY | INTEGER.

(** A decision variable as [addVar] declares it; [UB = None] is
    [GRB.INFINITY]. *)
Record GrbVar : Type := mkVar {
  LB : Q;
  UB : option Q;
  VType : VarType;
  VarName : string
}.

(** [m.addVar(vtype=..., name=...)]: the bounds that are not passed keep
    gurobipy's defaults, [lb=0.0] and [ub=GRB.INFINITY]. *)
Definition addVar (vtype : VarType) (name : string) : GrbVar :=
  mkVar 0 None vtype name.

(** A linear expression as [quicksum] builds it: coefficient and variable of
    each term, in order. *)
Definition LinExpr : Type := list (Q * Var).

Inductive Sense : Type := LESS_EQUAL | GREATER_EQUAL.

Record Constr : Type := mkConstr {
  lhs : LinExpr;
  sense : Sense;
  rhs : Q
}.

(** The model as the calls of lines 122-131 leave it: the dict [x] (keys and
    variables in creation order), the objective, which is minimised, and the
    constraints. *)
Record Model : Type := mkModel {
  variables : list (Var * GrbVar);
  objective : LinExpr;
  constrs : list Constr
}.


(** [GRB.OPTIMAL] *)
Definition OPTIMAL : Z := 2%Z.
(** Other status codes of gurobipy, used in examples. *)
Definition INFEASIBLE : Z := 3%Z.
Definition TIME_LIMIT : Z := 9%Z.

(** What gurobipy does with the model of a call (lines 122-133).
    - [GrbBuildRaise]: one of [Model()], [addVar], [setObjective] and
      [addConstr] raises [GurobiError] while the model is built;
      [m.optimize()] is not reached.
    - [GrbRaise]: the model is built and [m.optimize()] raises.
    - [GrbDone]: [m.optimize()] returns and leaves a status together with
      the attribute [.x] of every variable (read only when the status is
      [OPTIMAL]). *)
Inductive Optimized : Type :=
| GrbBuildRaise (msg : string)
| GrbRaise (msg : string)
| GrbDone (status : Z) (X : Var → Q).

Definition sumQ (l : list Q) : Q := foldr Qplus 0 l.

(** Value of a linear expression under an assignment. *)
Definition eval (X : Var → Q) (e : LinExpr) : Q :=
  sumQ (map (λ t, fst t * X (snd t)) e).

Definition holds (X : Var → Q) (c : Constr) : Prop :=
  match sense c with
  | LESS_EQUAL => eval X (lhs c) <= rhs c
  | GREATER_EQUAL => rhs c <= eval X (lhs c)
  end.

(** [m.objVal] *)
Definition objVal (m : Model) (X : Var → Q) : Q := eval X (objective m).

(** The value [v] is one the declaration of the variable allows: within
    its bounds, and whole when the variable is not continuous. *)
Definition admits (d : GrbVar) (v : Q) : Prop :=
  LB d <= v ∧
  match UB d with Some u => v <= u | None => True end ∧
  match VType d with
  | CONTINUOUS => True
  | BINARY => v == 0 ∨ v == 1
  | INTEGER => ∃ z : Z, v == inject_Z z
  end.

Definition feasible (m : Model) (X : Var → Q) : Prop :=
  (∀ k d, (k, d) ∈ variables m → admits d (X k)) ∧
  (∀ c, c ∈ constrs m → holds X c).

(** [X] is an optimal solution of [m]. *)
Definition optimal (m : Model) (X : Var → Q) : Prop :=
  feasible m X ∧ ∀ Y, feasible m Y → objVal m X <= objVal m Y.

(** The one property of Gurobi that is relied upon, at one model: a run that
    ends with status [OPTIMAL] carries an optimal solution. *)
Definition gurobi_sound (optimize : Model → Optimized) (m : Model) : Prop :=
  ∀ X, optimize m = GrbDone OPTIMAL X → optimal m X.

(** ** Outside effects *)

Inductive event : Type :=
| Optimize (m : Model)                    (* m.optimize() *)
| WarningBox (title text : string)        (* QMessageBox.warning *)
| CriticalBox (title : string) (e : exn). (* QMessageBox.critical; its text
                                             is "Erreur lors de la résolution : "
                                             followed by str(e) *)

Definition is_box (ev : event) : bool :=
  match ev with
  | Optimize _ => false
  | _ => true
  end.

(** The state a call runs in: the widgets and the trace so far. *)
Definition state : Type := (TransportApp * list event)%type.

Definition M (A : Type) : Type := state → result A * state.

#[global] Instance M_ret : MRet M := λ A a s, (Ok a, s).
#[global] Instance M_bind : MBind M :=
  λ A B f c s, match c s with
               | (Ok a, s') => f a s'
               | (Raise e, s') => (Raise e, s')
               end.

(** A computation that only may raise. *)
Definition pure {A : Type} (r : result A) : M A := λ s, (r, s).

Definition emit (ev : event) : M unit := λ s, (Ok tt, (fst s, snd s ++ [ev])).

Definition modify (f : TransportApp → TransportApp) : M unit :=
  λ s, (Ok tt, (f (fst s), snd s)).

(** [try: body  except Exception as e: handler(e)] *)
Definition try_except (body : M unit) (handler : exn → M unit) : M unit :=
  λ s, match body s with
       | (Ok tt, s') => (Ok tt, s')
       | (Raise e, s') => handler e s'
       end.

(** ** Rendering with [:.2f] *)

(** Nearest integer to a non-negative rational, ties to even. *)
Definition round_half_even (q : Q) : Z :=
  let n := Qnum q in
  let d := Zpos (Qden q) in
  let fl := (n / d)%Z in
  let r2 := (2 * (n mod d))%Z in
  if (r2 <? d)%Z then fl
  else if (d <? r2)%Z then (fl + 1)%Z
  else if Z.even fl then fl else (fl + 1)%Z.

(** [f"{v:.2f}"] on an exact rational. *)
Definition fmt2 (v : Q) : string :=
  let q := Qred v in
  let c := round_half_even (Qabs q * 100) in
  (if (Qnum q <? 0)%Z then "-" else "")
    +:+ pretty (c / 100)%Z +:+ "."
    +:+ pretty (c / 10 mod 10)%Z +:+ pretty (c mod 10)%Z.

(** ** The program *)

Section Program.

(** Python's [float(text)]: [Some q] when it returns the number [q], [None]
    when it raises [ValueError].  [float()] also returns [inf] and [nan] (for
    'inf', 'nan' or '1e999'), which have no value in [Q]: reading such a cell
    raises nothing, and what becomes of it is up to gurobipy.  The statements
    are about tables without such cells. *)
Variable float : string → option Q.

(** gurobipy, from [Model("Transport")] to [m.optimize()]: what it does
    with the model that lines 122-131 pass to it. *)
Variable optimize : Model → Optimized.

(** The body of the inner loop of [_read_table]:
    [float(item.text()) if item and item.text() else 0]. *)
Definition read_cell (table : QTableWidget) (i j : nat) : result Q :=
  match item table i j with
  | Some text =>
      if bool_decide (text = "") then Ok 0
      else match float text with
           | Some value => Ok value
           | None => Raise (ValueError text)
           end
  | None => Ok 0
  end.

Definition _read_table (table : QTableWidget) (rows cols : nat)
  : result (list (list Q)) :=
  mapM (λ i, mapM (λ j, read_cell table i j) (seq 0 cols)) (seq 0 rows).

(** The keys of the dict [x], in creation order. *)
Definition keys (n_sources n_dest : nat) : list Var :=
  i ← seq 0 n_sources; j ← seq 0 n_dest; [(i, j)].

(** [quicksum(x[i, j] for j in range(n_dest))] *)
Definition row_expr (n_dest i : nat) : LinExpr :=
  map (λ j, (1, (i, j))) (seq 0 n_dest).

(** [quicksum(x[i, j] for i in range(n_sources))] *)
Definition col_expr (n_sources j : nat) : LinExpr :=
  map (λ i, (1, (i, j))) (seq 0 n_sources).

(** [f"x_{i}_{j}"] *)
Definition var_name (k : Var) : string :=
  "x_" +:+ pretty (fst k) +:+ "_" +:+ pretty (snd k).

(** Line 123: the dict [x]. *)
Definition new_vars (n_sources n_dest : nat) : list (Var * GrbVar) :=
  map (λ k, (k, addVar CONTINUOUS (var_name k))) (keys n_sources n_dest).

(** Lines 122-131 as far as Python goes: the variables, the objective, the
    supply and demand constraints that are passed to gurobipy, and the
    [IndexError] that indexing the three lists can raise.  What gurobipy
    makes of them is in [run_gurobi]. *)
Definition build_model (n_sources n_dest : nat)
    (couts : list (list Q)) (offres demandes : list Q) : result Model :=
  obj ← mapM (λ k : Var,
                row ← idx couts (fst k); c ← idx row (snd k); mret (c, k))
             (keys n_sources n_dest);
  supply ← mapM (λ i, o ← idx offres i;
                      mret (mkConstr (row_expr n_dest i) LESS_EQUAL o))
                (seq 0 n_sources);
  demand ← mapM (λ j, d ← idx demandes j;
                      mret (mkConstr (col_expr n_sources j) GREATER_EQUAL d))
                (seq 0 n_dest);
  mret (mkModel (new_vars n_sources n_dest) obj (supply ++ demand)).

(** Lines 113-119: the three tables as numbers. *)
Definition read_inputs (self : TransportApp)
  : result (list (list Q) * list Q * list Q) :=
  let n_sources := rowCount (cost_table self) in
  let n_dest := columnCount (cost_table self) in
  couts ← _read_table (cost_table self) n_sources n_dest;
  col ← _read_table (offre_table self) n_sources 1;
  offres ← mapM (λ row, idx row 0%nat) col;
  line ← _read_table (demande_table self) 1 n_dest;
  demandes ← idx line 0%nat;
  mret (couts, offres, demandes).

(** The calls of gurobipy in lines 122-133.  Those that build the model
    may raise, and then [m.optimize()] is not called; the call of
    [m.optimize()] is recorded in the trace, and may raise as well. *)
Definition run_gurobi (m : Model) : M (Z * (Var → Q)) :=
  match optimize m with
  | GrbBuildRaise msg => pure (Raise (GurobiError msg))
  | GrbRaise msg =>
      _ ← emit (Optimize m); pure (Raise (GurobiError msg))
  | GrbDone status X =>
      _ ← emit (Optimize m); mret (status, X)
  end.

(** Lines 136-141: the label, then one item per cell. *)
Definition show_result (n_sources n_dest : nat) (cost : Q) (X : Var → Q)
    (self : TransportApp) : TransportApp :=
  mkApp (cost_table self) (offre_table self) (demande_table self)
    (foldl (λ t k, setItem t (fst k) (snd k) (fmt2 (X k)))
           (result_table self) (keys n_sources n_dest))
    ("Coût total minimal : " +:+ fmt2 cost).

Definition solve_transport (self : TransportApp) : state :=
  snd (try_except
    (let n_sources := rowCount (cost_table self) in
     let n_dest := columnCount (cost_table self) in
     inputs ← pure (read_inputs self);
     let '(couts, offres, demandes) := inputs in
     m ← pure (build_model n_sources n_dest couts offres demandes);
     r ← run_gurobi m;
     let '(status, X) := r in
     if (status =? OPTIMAL)%Z
     then modify (show_result n_sources n_dest (objVal m X) X)
     else emit (WarningBox "Résultat" "Aucune solution optimale trouvée."))
    (λ e, emit (CriticalBox "Erreur" e))
    (self, [])).

End Program.

(** ** A reader for plain decimal literals

    [dec_float] reads a text of the form [sign? digits? (. digits?)?] with
    at least one digit as the rational it writes, and rejects every other
    text.  It agrees with Python's [float] on the integers of the concrete
    runs below, where it instantiates the parameter [float]; it is not
    [float] in general, which rounds to the nearest double and also accepts
    exponents, surrounding whitespace, [inf] and [nan]. *)

Definition digit (a : Ascii.ascii) : option Z :=
  let n := Ascii.nat_of_ascii a in
  if (48 <=? n)%nat && (n <=? 57)%nat then Some (Z.of_nat (n - 48)) else None.

Fixpoint dec_digits (s : string) (num : Z) (den : positive)
    (frac seen : bool) : option Q :=
  match s with
  | EmptyString => if seen then Some (num # den) else None
  | String a s' =>
      if Ascii.eqb a "."%char then
        if frac then None else dec_digits s' num den true seen
      else
        match digit a with
        | Some d =>
            dec_digits s' (10 * num + d)%Z (if frac then (10 * den)%positive else den)
                       frac true
        | None => None
        end
  end.

Definition dec_float (s : string) : option Q :=
  match s with
  | String "-"%char s' => Qopp <$> dec_digits s' 0%Z 1%positive false false
  | String "+"%char s' => dec_digits s' 0%Z 1%positive false false
  | _ => dec_digits s 0%Z 1%positive false false
  end.

(** ** Vocabulary of the statements *)

(** Units shipped out of source [i] and into destination [j]. *)
Definition rowsum (n_dest : nat) (X : Var → Q) (i : nat) : Q :=
  sumQ (map (λ j, X (i, j)) (seq 0 n_dest)).

Definition colsum (n_sources : nat) (X : Var → Q) (j : nat) : Q :=
  sumQ (map (λ i, X (i, j)) (seq 0 n_sources)).

(** [Σ_ij cost i j * X (i, j)] over an [n_sources] by [n_dest] grid. *)
Definition total_cost (n_sources n_dest : nat) (cost : nat → nat → Q)
    (X : Var → Q) : Q :=
  sumQ (map (λ i, sumQ (map (λ j, cost i j * X (i, j)) (seq 0 n_dest)))
            (seq 0 n_sources)).

(** [couts[i][j]], [offres[i]], [demandes[j]] as total functions (the default
    is never reached inside the grid). *)
Definition at2 (couts : list (list Q)) (i j : nat) : Q :=
  default 0 (couts !! i ≫= λ row, row !! j).

Definition at1 (l : list Q) (i : nat) : Q := default 0 (l !! i).

(** The model of lines 122-131 written out for a cost function and supply
    and demand functions; [build_model] returns it whenever its list
    arguments have the shape of the grid. *)
Definition model_of (n_sources n_dest : nat) (cost : nat → nat → Q)
    (supply demand : nat → Q) : Model :=
  mkModel (new_vars n_sources n_dest)
    (map (λ k : Var, (cost (fst k) (snd k), k)) (keys n_sources n_dest))
    (map (λ i, mkConstr (row_expr n_dest i) LESS_EQUAL (supply i)) (seq 0 n_sources)
     ++ map (λ j, mkConstr (col_expr n_sources j) GREATER_EQUAL (demand j))
            (seq 0 n_dest)).

(** The three lists have the shape of an [n_sources] by [n_dest] grid. *)
Definition grid_shaped (n_sources n_dest : nat)
    (couts : list (list Q)) (offres demandes : list Q) : Prop :=
  length offres = n_sources ∧ length demandes = n_dest ∧
  length couts = n_sources ∧ ∀ row, row ∈ couts → length row = n_dest.

(** The model a call builds from the widgets, when reading them raises
    nothing. *)
Definition lp (float : string → option Q) (self : TransportApp) : result Model :=
  inputs ← read_inputs float self;
  build_model (rowCount (cost_table self)) (columnCount (cost_table self))
              inputs.1.1 inputs.1.2 inputs.2.

(** No message box was shown. *)
Definition no_box (trace : list event) : bool :=
  forallb (λ ev, negb (is_box ev)) trace.

(** The call ends without any message box: the result widgets were written. *)
Definition succeeds (float : string → option Q) (optimize : Model → Optimized)
    (self : TransportApp) : Prop :=
  no_box (snd (solve_transport float optimize self)) = true.

(** A successful call: the optimiser answered [OPTIMAL] with the allocation
    [X], whose objective value is [cost], and both were written into the
    result widgets. *)
Definition returns (float : string → option Q) (optimize : Model → Optimized)
    (self : TransportApp) (cost : Q) (X : Var → Q) : Prop :=
  ∃ m, lp float self = Ok m ∧ optimize m = GrbDone OPTIMAL X ∧
       cost = objVal m X ∧
       solve_transport float optimize self =
         (show_result (rowCount (cost_table self)) (columnCount (cost_table self))
                      cost X self,
          [Optimize m]).

(** Gurobi is sound on the model the call builds. *)
Definition sound_on (float : string → option Q) (optimize : Model → Optimized)
    (self : TransportApp) : Prop :=
  ∀ m, lp float self = Ok m → gurobi_sound optimize m.

(** The call stops on an exception before the optimiser is reached. *)
Definition rejects (float : string → option Q) (optimize : Model → Optimized)
    (self : TransportApp) : Prop :=
  ∃ e, solve_transport float optimize self = (self, [CriticalBox "Erreur" e]).

(** Some value of the instance is negative. *)
Definition has_negative (n_sources n_dest : nat)
    (couts : list (list Q)) (offres demandes : list Q) : Prop :=
  (∃ i j, (i < n_sources)%nat ∧ (j < n_dest)%nat ∧ at2 couts i j < 0) ∨
  (∃ i, (i < n_sources)%nat ∧ at1 offres i < 0) ∨
  (∃ j, (j < n_dest)%nat ∧ at1 demandes j < 0).

(** Plans that ship exactly the demanded quantities, and the least cost
    among them. *)
Definition exact_plan (n_sources n_dest : nat) (supply demand : nat → Q)
    (Y : Var → Q) : Prop :=
  (∀ i j, (i < n_sources)%nat → (j < n_dest)%nat → 0 <= Y (i, j)) ∧
  (∀ i, (i < n_sources)%nat → rowsum n_dest Y i <= supply i) ∧
  (∀ j, (j < n_dest)%nat → colsum n_sources Y j == demand j).

Definition min_exact_cost (n_sources n_dest : nat) (cost : nat → nat → Q)
    (supply demand : nat → Q) (v : Q) : Prop :=
  (∃ Y, exact_plan n_sources n_dest supply demand Y ∧
        total_cost n_sources n_dest cost Y == v) ∧
  ∀ Y, exact_plan n_sources n_dest supply demand Y →
       v <= total_cost n_sources n_dest cost Y.

(** Scaling column [j] of [X] by [demand j / colsum j] brings every column
    sum down to the demand. *)
Definition ratio (n_sources : nat) (demand : nat → Q) (X : Var → Q) (j : nat) : Q :=
  if Qeq_bool (colsum n_sources X j) 0 then 0
  else demand j / colsum n_sources X j.

Definition trim (n_sources : nat) (demand : nat → Q) (X : Var → Q) : Var → Q :=
  λ k, X k * ratio n_sources demand X (snd k).

(** The supply or demand table does not have the dimensions of the cost
    table. *)
Definition shape_mismatch (self : TransportApp) : Prop :=
  rowCount (offre_table self) ≠ rowCount (cost_table self) ∨
  columnCount (demande_table self) ≠ columnCount (cost_table self).

(** Two states of the application with the same three input tables. *)
Definition same_inputs (a b : TransportApp) : Prop :=
  cost_table a = cost_table b ∧ offre_table a = offre_table b ∧
  demande_table a = demande_table b.

(** The cell is missing or its text is empty. *)
Definition blank (t : QTableWidget) (i j : nat) : Prop :=
  item t i j = None ∨ item t i j = Some "".


(** ** Concrete widgets and optimisers, for the runs below *)

Definition cell (i j : nat) (text : string) : nat * nat * string := (i, j, text).

Definition table (rows cols : nat) (cells : list (nat * nat * string)) : QTableWidget :=
  mkTable rows cols (list_to_map cells).

(** The label before any call. *)
Definition empty_label : string := "Coût total minimal : ".

(** One source, one destination. *)
Definition app1x1 (cost supply demand : string) : TransportApp :=
  mkApp (table 1 1 [cell 0 0 cost]) (table 1 1 [cell 0 0 supply])
        (table 1 1 [cell 0 0 demand]) (table 1 1 []) empty_label.

(** One unit cost, supply 5, demand 5: the only feasible plan ships 5. *)
Definition app_unit : TransportApp := app1x1 "1" "5" "5".

(** Unit cost, supply 10, demand 5: a surplus of 5. *)
Definition app_surplus : TransportApp := app1x1 "1" "10" "5".

(** A negative unit cost, supply 10, demand 5: shipping more pays. *)
Definition app_neg : TransportApp := app1x1 "-1" "10" "5".

(** Unit cost, supply 5, a negative demand. *)
Definition app_negdemand : TransportApp := app1x1 "1" "5" "-1".

(** Unit cost, supply 1, demand 2: no feasible plan. *)
Definition app_infeasible : TransportApp := app1x1 "1" "1" "2".

(** Two sources of supply 5 at the same unit cost, one destination of demand
    5: either source can serve it. *)
Definition app_tie : TransportApp :=
  mkApp (table 2 1 [cell 0 0 "1"; cell 1 0 "1"])
        (table 2 1 [cell 0 0 "5"; cell 1 0 "5"])
        (table 1 1 [cell 0 0 "5"]) (table 2 1 []) empty_label.

(** A two-by-two table with one number, one empty text and two cells never
    filled. *)
Definition sparse_table : QTableWidget :=
  table 2 2 [cell 0 0 "3"; cell 1 1 ""].

(** An optimiser that always answers [status] with every variable at [v]. *)
Definition answer (status : Z) (v : Q) : Model → Optimized :=
  λ _, GrbDone status (λ _, v).


(** An optimiser that answers [OPTIMAL], shipping [v] from source [i] only. *)
Definition ship_from (i : nat) (v : Q) : Model → Optimized :=
  λ _, GrbDone OPTIMAL (λ x, if (fst x =? i)%nat then v else 0).

(** An optimiser for grids of one cell with a non-negative cost: it compares
    the right-hand sides of the supply and the demand constraint. *)
Definition one_cell_opt (m : Model) : Optimized :=
  match constrs m with
  | [supply; demand] =>
      if Qle_bool (rhs demand) (rhs supply)
      then GrbDone OPTIMAL (λ _, rhs demand)
      else GrbDone INFEASIBLE (λ _, 0)
  | _ => GrbDone INFEASIBLE (λ _, 0)
  end.

(** [app_tie] as a first call, answered by [ship_from 0 5], leaves it. *)
Definition app_tie_again : TransportApp :=
  Eval vm_compute in fst (solve_transport dec_float (ship_from 0 5) app_tie).

(** The user types a new demand table. *)
Definition edit_demande (t : QTableWidget) (self : TransportApp) : TransportApp :=
  mkApp (cost_table self) (offre_table self) t
        (result_table self) (result_label self).

(** [app_unit] after one call, then with the demand raised to 7; and the
    same tables in a window that has never solved anything. *)
Definition app_second_call : TransportApp :=
  Eval vm_compute in
    edit_demande (table 1 1 [cell 0 0 "7"])
                 (fst (solve_transport dec_float one_cell_opt app_unit)).

Definition app_first_call : TransportApp := app1x1 "1" "5" "7".

(** ** Further vocabulary: reading errors and traces *)

(** The cell holds a non-empty text that [float] rejects. *)
Definition unreadable (float : string → option Q) (t : QTableWidget)
    (i j : nat) : Prop :=
  ∃ text, item t i j = Some text ∧ text ≠ "" ∧ float text = None.

(** Cell [(i', j')] is visited before cell [(i, j)] by the two loops of
    [_read_table]. *)
Definition visited_before (i' j' i j : nat) : Prop :=
  (i' < i)%nat ∨ (i' = i ∧ (j' < j)%nat).

Definition is_optimize (ev : event) : bool :=
  match ev with
  | Optimize _ => true
  | _ => false
  end.

(** How often the optimiser was called, and how many boxes were shown. *)
Definition optimizer_calls (trace : list event) : nat :=
  length (filter (λ ev, is_optimize ev = true) trace).

Definition boxes_shown (trace : list event) : nat :=
  length (filter (λ ev, is_box ev = true) trace).

(** A cost that is not a number. *)
Definition app_text : TransportApp := app1x1 "abc" "1" "1".

(** A table whose second and fourth cells, in reading order, are not
    numbers. *)
Definition two_bad_cells : QTableWidget :=
  table 2 2 [cell 0 0 "1"; cell 0 1 "x"; cell 1 0 "2"; cell 1 1 "y"].

(** Unit cost, a negative supply, no demand. *)
Definition app_negsupply : TransportApp := app1x1 "1" "-1" "0".

(** Unit cost, supply 5, the demand left blank. *)
Definition app_nodemand : TransportApp := app1x1 "1" "5" "".

(** One source and two destinations, with a result table of two rows and
    one column.  The window never is in this state: [update_tables] keeps
    the result table as wide as the cost table. *)
Definition app_narrow : TransportApp :=
  mkApp (table 1 2 [cell 0 0 "1"; cell 0 1 "1"]) (table 1 1 [cell 0 0 "5"])
        (table 1 2 [cell 0 0 "2"; cell 0 1 "3"]) (table 2 1 []) empty_label.

(** An optimiser that answers [OPTIMAL], shipping 2 to the first destination
    and 3 to the others. *)
Definition ship_2_3 : Model → Optimized :=
  λ _, GrbDone OPTIMAL (λ x, if (snd x =? 0)%nat then 2 else 3).

(** Every source ships to every destination in proportion to the demand:
    [supply i * demand j / total supply]. *)
Definition proportional (n_sources : nat) (supply demand : nat → Q) : Var → Q :=
  let total := sumQ (map supply (seq 0 n_sources)) in
  λ k, if Qeq_bool total 0 then 0
       else demand (snd k) * (supply (fst k) / total).

(** The cost of shipping the whole supply on the routes of negative cost and
    nothing on the others. *)
Definition cost_floor (n_sources n_dest : nat) (cost : nat → nat → Q)
    (supply : nat → Q) : Q :=
  total_cost n_sources n_dest
    (λ i j, if Qle_bool 0 (cost i j) then 0 else cost i j)
    (λ k, supply (fst k)).

(** ** The window around [solve_transport]

    [__init__], [update_tables] and [_setup_table] manage the two spin boxes,
    the dimensions and headers of the four tables, and the group boxes of
    the main layout.  Style sheets, stretching and column resizing are
    presentation and are left out. *)

(** A [QSpinBox]: Qt keeps the value within [minimum, maximum]. *)
Record QSpinBox : Type := mkSpin {
  spin_value : nat;
  spin_minimum : nat;
  spin_maximum : nat
}.

Definition clamp (lo hi v : nat) : nat := Nat.max lo (Nat.min hi v).

(** [QSpinBox()]: value 0 in the range 0 to 99. *)
Definition new_spin : QSpinBox := mkSpin 0 0 99.

(** [spin.setValue(v)] *)
Definition setValue (s : QSpinBox) (v : nat) : QSpinBox :=
  mkSpin (clamp (spin_minimum s) (spin_maximum s) v)
         (spin_minimum s) (spin_maximum s).

(** [spin.setMinimum(lo)]: the maximum is raised to [lo] if it was below, and
    the value is brought back into the range. *)
Definition setMinimum (s : QSpinBox) (lo : nat) : QSpinBox :=
  let hi := Nat.max lo (spin_maximum s) in
  mkSpin (clamp lo hi (spin_value s)) lo hi.

(** [table.setRowCount(rows)] and [table.setColumnCount(cols)]: the items of
    the rows or columns that disappear are deleted, the others are kept. *)
Definition setRowCount (t : QTableWidget) (rows : nat) : QTableWidget :=
  mkTable rows (columnCount t)
          (filter (λ kv : nat * nat * string, (kv.1.1 < rows)%nat) (items t)).

Definition setColumnCount (t : QTableWidget) (cols : nat) : QTableWidget :=
  mkTable (rowCount t) cols
          (filter (λ kv : nat * nat * string, (kv.1.2 < cols)%nat) (items t)).

(** [QTableWidget()]: no row, no column, no item. *)
Definition new_table : QTableWidget := mkTable 0 0 ∅.

(** What [_setup_table] sets on a table besides its dimensions. *)
Record TableSetup : Type := mkSetup {
  horizontalHeaderLabels : list string;
  verticalHeaderLabels : list string;
  editable : bool   (* AllEditTriggers or NoEditTriggers *)
}.

(** [[f"{prefix}{j+1}" for j in range(n)]] *)
Definition header_labels (prefix : string) (n : nat) : list string :=
  map (λ j, prefix +:+ pretty (j + 1)%nat) (seq 0 n).

(** The items of the main layout.  [doomed] records that [deleteLater()] was
    called on a group box: Qt deletes it, and takes it out of the layout,
    only when control returns to the event loop. *)
Inductive LayoutItem : Type :=
| ItemLabel (text : string)
| ItemLayout                                  (* itemAt(i).widget() is None *)
| ItemGroupBox (title : string) (doomed : bool)
| ItemButton (text : string)
| ItemResultLabel.                            (* self.result_label *)

(** The loop of lines 103-108: the first group box with the title is doomed
    and the new one is inserted at its index.  [None]: the loop ended without
    finding one. *)
Fixpoint replace_group_box (title : string) (layout : list LayoutItem)
  : option (list LayoutItem) :=
  match layout with
  | [] => None
  | ItemGroupBox t doomed :: rest =>
      if String.eqb t title
      then Some (ItemGroupBox title false :: ItemGroupBox t true :: rest)
      else (ItemGroupBox t doomed ::.) <$> replace_group_box title rest
  | it :: rest => (it ::.) <$> replace_group_box title rest
  end.

(** Lines 101-109. *)
Definition place_group_box (title : string) (layout : list LayoutItem)
  : list LayoutItem :=
  match replace_group_box title layout with
  | Some layout' => layout'
  | None => layout ++ [ItemGroupBox title false]
  end.

(** [_setup_table]: the table with its new dimensions, its headers and edit
    triggers, and the layout with the new group box. *)
Definition _setup_table (layout : list LayoutItem) (table : QTableWidget)
    (rows cols : nat) (title row_prefix col_prefix : string) (editable : bool)
  : QTableWidget * TableSetup * list LayoutItem :=
  (setColumnCount (setRowCount table rows) cols,
   mkSetup (header_labels col_prefix cols) (header_labels row_prefix rows) editable,
   place_group_box title layout).

Record Window : Type := mkWindow {
  widgets : TransportApp;
  n_sources_spin : QSpinBox;
  n_dest_spin : QSpinBox;
  cost_setup : TableSetup;
  offre_setup : TableSetup;
  demande_setup : TableSetup;
  result_setup : TableSetup;
  main_layout : list LayoutItem
}.

Definition update_tables (self : Window) : Window :=
  let n_sources := spin_value (n_sources_spin self) in
  let n_dest := spin_value (n_dest_spin self) in
  let '(cost, cost_s, layout) :=
    _setup_table (main_layout self) (cost_table (widgets self))
                 n_sources n_dest "Coûts" "S" "D" true in
  let '(offre, offre_s, layout) :=
    _setup_table layout (offre_table (widgets self))
                 n_sources 1 "Offres des sources" "S" "" true in
  let '(demande, demande_s, layout) :=
    _setup_table layout (demande_table (widgets self))
                 1 n_dest "Demandes des destinations" "" "D" true in
  let '(result, result_s, layout) :=
    _setup_table layout (result_table (widgets self))
                 n_sources n_dest "Solution Optimale" "S" "D" false in
  mkWindow (mkApp cost offre demande result (result_label (widgets self)))
           (n_sources_spin self) (n_dest_spin self)
           cost_s offre_s demande_s result_s layout.

(** [TransportApp.__init__].  The spin boxes are set up before their signal
    is connected, so [update_tables] runs once, on the four new tables, when
    the layout holds the instructions and the row of spin boxes; the button
    and the result label come after the group boxes. *)
Definition init_window : Window :=
  let spin := setMinimum (setValue new_spin 3) 1 in
  let no_setup := mkSetup [] [] true in
  let layout :=
    [ItemLabel "Saisir les coûts dans le tableau ci-dessous, puis les offres et demandes. Cliquez sur 'Résoudre' pour calculer le coût minimal.";
     ItemLayout] in
  let self :=
    update_tables
      (mkWindow (mkApp new_table new_table new_table new_table
                       "Coût total minimal : ")
                spin spin no_setup no_setup no_setup no_setup layout) in
  mkWindow (widgets self) (n_sources_spin self) (n_dest_spin self)
           (cost_setup self) (offre_setup self) (demande_setup self)
           (result_setup self)
           (main_layout self ++ [ItemButton "Résoudre"; ItemResultLabel]).

(** The spin box signals: a new value, once clamped, calls [update_tables]
    when it differs from the old one. *)
Definition change_sources (v : nat) (self : Window) : Window :=
  let spin := setValue (n_sources_spin self) v in
  if (spin_value spin =? spin_value (n_sources_spin self))%nat then self
  else update_tables
         (mkWindow (widgets self) spin (n_dest_spin self)
                   (cost_setup self) (offre_setup self) (demande_setup self)
                   (result_setup self) (main_layout self)).

Definition change_dest (v : nat) (self : Window) : Window :=
  let spin := setValue (n_dest_spin self) v in
  if (spin_value spin =? spin_value (n_dest_spin self))%nat then self
  else update_tables
         (mkWindow (widgets self) (n_sources_spin self) spin
                   (cost_setup self) (offre_setup self) (demande_setup self)
                   (result_setup self) (main_layout self)).

(** Control returns to the event loop: the doomed group boxes are deleted. *)
Definition is_doomed (it : LayoutItem) : bool :=
  match it with
  | ItemGroupBox _ true => true
  | _ => false
  end.

Definition process_events (layout : list LayoutItem) : list LayoutItem :=
  filter (λ it, is_doomed it = false) layout.

(** The click on [Résoudre]. *)
Definition click_solve (float : string → option Q)
    (optimize : Model → Optimized) (self : Window) : Window :=
  mkWindow (fst (solve_transport float optimize (widgets self)))
           (n_sources_spin self) (n_dest_spin self)
           (cost_setup self) (offre_setup self) (demande_setup self)
           (result_setup self) (main_layout self).

(** The three tables the user can type in. *)
Inductive InputTable : Type := CostTable | OffreTable | DemandeTable.

(** The user types [text] into a cell of an input table.  Only cells of the
    table can be typed into; an index past the end of a row stands for the
    cell [setItem] places it on, an index past the end of the table for no
    cell at all. *)
Definition type_cell (which : InputTable) (i j : nat) (text : string)
    (self : Window) : Window :=
  let app := widgets self in
  let app' :=
    match which with
    | CostTable =>
        mkApp (setItem (cost_table app) i j text) (offre_table app)
              (demande_table app) (result_table app) (result_label app)
    | OffreTable =>
        mkApp (cost_table app) (setItem (offre_table app) i j text)
              (demande_table app) (result_table app) (result_label app)
    | DemandeTable =>
        mkApp (cost_table app) (offre_table app)
              (setItem (demande_table app) i j text) (result_table app)
              (result_label app)
    end in
  mkWindow app' (n_sources_spin self) (n_dest_spin self)
           (cost_setup self) (offre_setup self) (demande_setup self)
           (result_setup self) (main_layout self).

(** ** Invariants of the window *)

(** No item lies outside the table. *)
Definition table_wf (t : QTableWidget) : Prop :=
  ∀ i j text, items t !! (i, j) = Some text → in_range t i j = true.

(** The table has [rows] rows and [cols] columns. *)
Definition has_dims (t : QTableWidget) (rows cols : nat) : Prop :=
  rowCount t = rows ∧ columnCount t = cols.

(** The four tables have the dimensions the spin boxes ask for. *)
Definition dims_ok (self : Window) : Prop :=
  let n := spin_value (n_sources_spin self) in
  let m := spin_value (n_dest_spin self) in
  has_dims (cost_table (widgets self)) n m ∧
  has_dims (offre_table (widgets self)) n 1 ∧
  has_dims (demande_table (widgets self)) 1 m ∧
  has_dims (result_table (widgets self)) n m.

Definition tables_wf (self : Window) : Prop :=
  table_wf (cost_table (widgets self)) ∧ table_wf (offre_table (widgets self)) ∧
  table_wf (demande_table (widgets self)) ∧ table_wf (result_table (widgets self)).

(** The spin box is as [__init__] configured it: values from 1 to 99. *)
Definition spin_ok (s : QSpinBox) : Prop :=
  spin_minimum s = 1%nat ∧ spin_maximum s = 99%nat ∧
  (1 ≤ spin_value s)%nat ∧ (spin_value s ≤ 99)%nat.

(** Whether the first group box with the title, if any, is doomed. *)
Fixpoint first_group_box (title : string) (layout : list LayoutItem)
  : option bool :=
  match layout with
  | [] => None
  | ItemGroupBox t doomed :: rest =>
      if String.eqb t title then Some doomed else first_group_box title rest
  | _ :: rest => first_group_box title rest
  end.

Definition table_titles : list string :=
  ["Coûts"; "Offres des sources"; "Demandes des destinations";
   "Solution Optimale"].

(** Each of the four group boxes is in the layout, and ahead of the doomed
    boxes with its title. *)
Definition layout_settled (layout : list LayoutItem) : Prop :=
  ∀ title, title ∈ table_titles → first_group_box title layout = Some false.

(** The states the user can bring the window to. *)
Inductive reachable (float : string → option Q) : Window → Prop :=
| reach_init : reachable float init_window
| reach_sources v self :
    reachable float self → reachable float (change_sources v self)
| reach_dest v self :
    reachable float self → reachable float (change_dest v self)
| reach_type which i j text self :
    reachable float self → reachable float (type_cell which i j text self)
| reach_solve optimize self :
    reachable float self → reachable float (click_solve float optimize self)
| reach_events self :
    reachable float self →
    reachable float
      (mkWindow (widgets self) (n_sources_spin self) (n_dest_spin self)
                (cost_setup self) (offre_setup self) (demande_setup self)
                (result_setup self) (process_events (main_layout self))).

(** What holds in every reachable state. *)
Definition window_ok (self : Window) : Prop :=
  spin_ok (n_sources_spin self) ∧ spin_ok (n_dest_spin self) ∧
  dims_ok self ∧ tables_wf self ∧ layout_settled (main_layout self) ∧
  process_events (main_layout self) = main_layout init_window.

(** ** Concrete windows *)

(** The new window with a cost typed into its last cell and the number of
    sources then lowered to 2, before [update_tables] has run. *)
Definition window_shrinking : Window :=
  let self := type_cell CostTable 2 2 "7" init_window in
  mkWindow (widgets self) (setValue (n_sources_spin self) 2) (n_dest_spin self)
           (cost_setup self) (offre_setup self) (demande_setup self)
           (result_setup self) (main_layout self).

(** The window brought to one source and one destination, with the cost 1,
    the supply 5 and the demand 5 typed in. *)
Definition window_unit : Window :=
  type_cell DemandeTable 0 0 "5"
    (type_cell OffreTable 0 0 "5"
       (type_cell CostTable 0 0 "1"
          (change_dest 1 (change_sources 1 init_window)))).



(** ** Facts about the error monad *)

Lemma mapM_cons {A B : Type} (f : A → result B) (a : A) (l : list A) :
  mapM f (a :: l) =
  match f a with
  | Ok b => match mapM f l with Ok k => Ok (b :: k) | Raise e => Raise e end
  | Raise e => Raise e
  end.
Proof. reflexivity. Qed.

Lemma mapM_Ok_Forall2 {A B : Type} (f : A → result B) (l : list A) (k : list B) :
  mapM f l = Ok k ↔ Forall2 (λ a b, f a = Ok b) l k.
Proof.
  revert k. induction l as [|a l IH]; intros k.
  - split.
    + intros H. injection H as <-. constructor.
    + intros H. inversion H. reflexivity.
  - rewrite mapM_cons. split.
    + destruct (f a) as [b|e] eqn:Ea; [|discriminate].
      destruct (mapM f l) as [k'|e] eqn:Ek; [|discriminate].
      intros H. injection H as <-. constructor; [assumption|]. by apply IH.
    + intros H. inversion H as [|? b ? k' Hab Hlk]; subst.
      apply IH in Hlk. by rewrite Hab, Hlk.
Qed.

(** [mapM] over [range(n)]: the result has [n] entries, the one at [i] being
    [f i]. *)
Lemma mapM_range_Ok {B : Type} (f : nat → result B) (n : nat) (k : list B) :
  mapM f (seq 0 n) = Ok k ↔
  length k = n ∧ ∀ i, (i < n)%nat → ∃ b, k !! i = Some b ∧ f i = Ok b.
Proof.
  rewrite mapM_Ok_Forall2, Forall2_lookup. split.
  - intros H. assert (Hlen : length k = n).
    { apply Nat.le_antisymm.
      - destruct (decide (length k ≤ n)%nat) as [|Hn]; [done|].
        specialize (H n). rewrite (proj2 (lookup_ge_None (seq 0 n) n)) in H
          by (rewrite length_seq; lia).
        destruct (lookup_lt_is_Some_2 k n) as [b Hb]; [lia|].
        rewrite Hb in H. inversion H.
      - destruct (decide (n ≤ length k)%nat) as [|Hn]; [done|].
        specialize (H (length k)).
        rewrite (proj2 (lookup_ge_None k (length k))) in H by lia.
        rewrite (proj2 (lookup_seq 0 n (length k) (length k))) in H by lia.
        inversion H. }
    split; [done|]. intros i Hi. specialize (H i).
    rewrite (proj2 (lookup_seq 0 n i i)) in H by lia.
    inversion H as [a b Hab| ]; subst. by exists b.
  - intros [Hlen H] i. destruct (decide (i < n)%nat) as [Hi|Hi].
    + destruct (H i Hi) as (b & Hb & Hf).
      rewrite Hb, (proj2 (lookup_seq 0 n i i)) by lia. by constructor.
    + rewrite (proj2 (lookup_ge_None k i)) by lia.
      rewrite (proj2 (lookup_ge_None (seq 0 n) i)) by (rewrite length_seq; lia).
      constructor.
Qed.

Lemma idx_Ok {A : Type} (l : list A) (i : nat) (a : A) :
  idx l i = Ok a ↔ l !! i = Some a.
Proof.
  unfold idx. destruct (l !! i); split; intros H; congruence.
Qed.

(** ** Finite sums of rationals *)

Arguments sumQ : simpl never.

Lemma sumQ_cons (q : Q) (l : list Q) : sumQ (q :: l) = q + sumQ l.
Proof. reflexivity. Qed.

Lemma sumQ_app (l1 l2 : list Q) : sumQ (l1 ++ l2) == sumQ l1 + sumQ l2.
Proof.
  induction l1 as [|q l1 IH]; simpl.
  - change (sumQ []) with 0. lra.
  - rewrite !sumQ_cons, IH. lra.
Qed.

Lemma sumQ_map_ext {A : Type} (f g : A → Q) (l : list A) :
  (∀ a, a ∈ l → f a == g a) → sumQ (map f l) == sumQ (map g l).
Proof.
  induction l as [|a l IH]; intros H; simpl; [reflexivity|].
  rewrite !sumQ_cons, IH, (H a); [reflexivity|by left|].
  intros b Hb. apply H. by right.
Qed.

Lemma sumQ_map_le {A : Type} (f g : A → Q) (l : list A) :
  (∀ a, a ∈ l → f a <= g a) → sumQ (map f l) <= sumQ (map g l).
Proof.
  induction l as [|a l IH]; intros H; simpl; [apply Qle_refl|].
  rewrite !sumQ_cons. apply Qplus_le_compat.
  - apply H. by left.
  - apply IH. intros b Hb. apply H. by right.
Qed.

Lemma sumQ_map_plus {A : Type} (f g : A → Q) (l : list A) :
  sumQ (map (λ a, f a + g a) l) == sumQ (map f l) + sumQ (map g l).
Proof.
  induction l as [|a l IH]; simpl.
  - change (sumQ []) with 0. lra.
  - rewrite !sumQ_cons, IH. lra.
Qed.

Lemma sumQ_map_zero {A : Type} (f : A → Q) (l : list A) :
  (∀ a, a ∈ l → f a == 0) → sumQ (map f l) == 0.
Proof.
  induction l as [|a l IH]; intros H; simpl; [reflexivity|].
  rewrite sumQ_cons, IH, (H a); [lra|by left|].
  intros b Hb. apply H. by right.
Qed.

(** Summing a grid by rows or by columns gives the same total. *)
Lemma sumQ_swap {A B : Type} (f : A → B → Q) (la : list A) (lb : list B) :
  sumQ (map (λ a, sumQ (map (λ b, f a b) lb)) la) ==
  sumQ (map (λ b, sumQ (map (λ a, f a b) la)) lb).
Proof.
  induction la as [|a la IH]; simpl.
  - symmetry. apply sumQ_map_zero. reflexivity.
  - rewrite sumQ_cons, IH.
    rewrite <- sumQ_map_plus. apply sumQ_map_ext. intros b _.
    by rewrite sumQ_cons.
Qed.

(** Terms bounded one by one whose totals agree are equal one by one. *)
Lemma sumQ_squeeze {A : Type} (f g : A → Q) (l : list A) :
  (∀ a, a ∈ l → f a <= g a) →
  sumQ (map g l) <= sumQ (map f l) →
  ∀ a, a ∈ l → f a == g a.
Proof.
  induction l as [|b l IH]; intros Hle Hsum a Ha.
  - inversion Ha.
  - simpl in Hsum. rewrite !sumQ_cons in Hsum.
    assert (Hb : f b <= g b) by (apply Hle; by left).
    assert (Hl : sumQ (map f l) <= sumQ (map g l)).
    { apply sumQ_map_le. intros c Hc. apply Hle. by right. }
    apply elem_of_cons in Ha as [->|Ha].
    + lra.
    + apply IH; [|lra|done]. intros c Hc. apply Hle. by right.
Qed.

(** A list is the sum of its entries read by index. *)
Lemma sumQ_at1 (l : list Q) :
  sumQ l == sumQ (map (at1 l) (seq 0 (length l))).
Proof.
  induction l as [|q l IH]; simpl; [reflexivity|].
  rewrite !sumQ_cons, <- seq_shift, map_map. unfold at1 at 1. simpl.
  rewrite IH. reflexivity.
Qed.

(** ** Reading the tables *)

Section ProgramFacts.

Variable float : string → option Q.
Variable optimize : Model → Optimized.

Lemma read_table_Ok (t : QTableWidget) (rows cols : nat) (data : list (list Q)) :
  _read_table float t rows cols = Ok data ↔
  length data = rows ∧
  ∀ i, (i < rows)%nat → ∃ row, data !! i = Some row ∧ length row = cols ∧
    ∀ j, (j < cols)%nat → ∃ v, row !! j = Some v ∧ read_cell float t i j = Ok v.
Proof.
  unfold _read_table. rewrite mapM_range_Ok. split; intros [Hlen H]; (split; [done|]).
  - intros i Hi. destruct (H i Hi) as (row & Hrow & Hm). exists row.
    apply mapM_range_Ok in Hm as [? ?]. done.
  - intros i Hi. destruct (H i Hi) as (row & Hrow & Hl & Hc). exists row.
    split; [done|]. by apply mapM_range_Ok.
Qed.

(** What a successful read of the three tables returns. *)
Lemma read_inputs_Ok (self : TransportApp) couts offres demandes :
  read_inputs float self = Ok (couts, offres, demandes) →
  let n := rowCount (cost_table self) in
  let m := columnCount (cost_table self) in
  grid_shaped n m couts offres demandes ∧
  (∀ i j, (i < n)%nat → (j < m)%nat →
     read_cell float (cost_table self) i j = Ok (at2 couts i j)) ∧
  (∀ i, (i < n)%nat → read_cell float (offre_table self) i 0 = Ok (at1 offres i)) ∧
  (∀ j, (j < m)%nat → read_cell float (demande_table self) 0 j = Ok (at1 demandes j)).
Proof.
  intros H n m. unfold read_inputs in H. fold n m in H.
  destruct (_read_table float (cost_table self) n m) as [c|] eqn:Ec;
    [|discriminate].
  destruct (_read_table float (offre_table self) n 1) as [col|] eqn:Eo;
    [|discriminate].
  cbn [mbind result_bind] in H.
  destruct (mapM (λ row, idx row 0%nat) col) as [o|] eqn:Em; [|discriminate].
  destruct (_read_table float (demande_table self) 1 m) as [line|] eqn:Ed;
    [|discriminate].
  cbn [mbind result_bind] in H.
  destruct (idx line 0%nat) as [d|] eqn:El; [|discriminate].
  unfold mret, result_ret in H. injection H as -> -> ->.
  apply read_table_Ok in Ec as [Hclen Hc].
  apply read_table_Ok in Eo as [Hollen Ho].
  apply read_table_Ok in Ed as [Hdlen Hd].
  apply mapM_Ok_Forall2 in Em.
  apply idx_Ok in El.
  destruct (Hd 0%nat) as (line0 & Hl0 & Hl0len & Hdcells); [lia|].
  assert (line0 = demandes) as -> by congruence.
  assert (Holen : length offres = n).
  { rewrite <- (Forall2_length _ _ _ Em). done. }
  repeat split; try done.
  - intros row Hrow. apply list_elem_of_lookup in Hrow as [i Hi].
    destruct (Hc i) as (row' & Hr' & Hlen' & _).
    { rewrite <- Hclen. by eapply lookup_lt_Some. }
    congruence.
  - intros i j Hi Hj. destruct (Hc i Hi) as (row & Hr & _ & Hcells).
    destruct (Hcells j Hj) as (v & Hv & Hread).
    unfold at2. rewrite Hr. simpl. rewrite Hv. done.
  - intros i Hi. destruct (Ho i Hi) as (row & Hr & _ & Hcells).
    destruct (Hcells 0%nat) as (v & Hv & Hread); [lia|].
    destruct (lookup_lt_is_Some_2 offres i) as [o Ho']; [lia|].
    pose proof (Forall2_lookup_lr _ _ _ _ _ _ Em Hr Ho') as Hidx.
    apply idx_Ok in Hidx. unfold at1. rewrite Ho'. simpl. congruence.
  - intros j Hj. destruct (Hdcells j Hj) as (v & Hv & Hread).
    unfold at1. rewrite Hv. done.
Qed.

(** ** Building the model *)

Lemma mapM_map_Ok {A B : Type} (f : A → result B) (g : A → B) (l : list A) :
  (∀ a, a ∈ l → f a = Ok (g a)) → mapM f l = Ok (map g l).
Proof.
  intros H. apply mapM_Ok_Forall2, Forall2_fmap_r, Forall_Forall2_diag.
  by apply Forall_forall.
Qed.

Lemma elem_of_keys (n m i j : nat) :
  (i, j) ∈ keys n m ↔ (i < n)%nat ∧ (j < m)%nat.
Proof.
  unfold keys. rewrite list_elem_of_bind. split.
  - intros (i' & Hin & Hi'). apply list_elem_of_bind in Hin as (j' & Hin & Hj').
    apply list_elem_of_singleton in Hin. injection Hin as -> ->.
    apply elem_of_seq in Hi', Hj'. lia.
  - intros [Hi Hj]. exists i. split; [|apply elem_of_seq; lia].
    apply list_elem_of_bind. exists j. split; [by left|apply elem_of_seq; lia].
Qed.

Lemma at2_lookup (couts : list (list Q)) (row : list Q) (i j : nat) (c : Q) :
  couts !! i = Some row → row !! j = Some c → at2 couts i j = c.
Proof. intros Hr Hc. unfold at2. rewrite Hr. simpl. by rewrite Hc. Qed.

Lemma at1_lookup (l : list Q) (i : nat) (q : Q) : l !! i = Some q → at1 l i = q.
Proof. intros H. unfold at1. by rewrite H. Qed.

(** On lists with the shape of the grid no index is out of range, and the
    model is [model_of]. *)
Lemma build_model_Ok (n m : nat) couts offres demandes :
  grid_shaped n m couts offres demandes →
  build_model n m couts offres demandes =
    Ok (model_of n m (at2 couts) (at1 offres) (at1 demandes)).
Proof.
  intros (Ho & Hd & Hc & Hrows). unfold build_model, model_of.
  rewrite (mapM_map_Ok _ (λ k : Var, (at2 couts (fst k) (snd k), k))).
  2:{ intros [i j] Hk. apply elem_of_keys in Hk as [Hi Hj]. simpl.
      destruct (lookup_lt_is_Some_2 couts i) as [row Hrow]; [lia|].
      assert (Hlen : length row = m).
      { apply Hrows. apply list_elem_of_lookup. eauto. }
      destruct (lookup_lt_is_Some_2 row j) as [c Hcell]; [lia|].
      rewrite (proj2 (idx_Ok _ _ _) Hrow). cbn [mbind result_bind].
      rewrite (proj2 (idx_Ok _ _ _) Hcell). cbn [mbind result_bind].
      rewrite (at2_lookup _ _ _ _ _ Hrow Hcell). reflexivity. }
  cbn [mbind result_bind].
  rewrite (mapM_map_Ok _ (λ i, mkConstr (row_expr m i) LESS_EQUAL (at1 offres i))
             (seq 0 n)).
  2:{ intros i Hi. apply elem_of_seq in Hi.
      destruct (lookup_lt_is_Some_2 offres i) as [o Hoi]; [lia|].
      rewrite (proj2 (idx_Ok _ _ _) Hoi). cbn [mbind result_bind].
      rewrite (at1_lookup _ _ _ Hoi). reflexivity. }
  cbn [mbind result_bind].
  rewrite (mapM_map_Ok _ (λ j, mkConstr (col_expr n j) GREATER_EQUAL (at1 demandes j))
             (seq 0 m)).
  2:{ intros j Hj. apply elem_of_seq in Hj.
      destruct (lookup_lt_is_Some_2 demandes j) as [d Hdj]; [lia|].
      rewrite (proj2 (idx_Ok _ _ _) Hdj). cbn [mbind result_bind].
      rewrite (at1_lookup _ _ _ Hdj). reflexivity. }
  reflexivity.
Qed.

(** The model of a state whose tables can be read. *)
Lemma lp_Ok (self : TransportApp) couts offres demandes :
  read_inputs float self = Ok (couts, offres, demandes) →
  lp float self =
    Ok (model_of (rowCount (cost_table self)) (columnCount (cost_table self))
                 (at2 couts) (at1 offres) (at1 demandes)).
Proof.
  intros H. unfold lp. rewrite H. cbn [mbind result_bind fst snd].
  apply build_model_Ok. by apply read_inputs_Ok in H as [? _].
Qed.

Lemma lp_Raise (self : TransportApp) (e : exn) :
  read_inputs float self = Raise e → lp float self = Raise e.
Proof. intros H. unfold lp. by rewrite H. Qed.

End ProgramFacts.

(** ** The linear program behind [model_of] *)

Lemma sumQ_bind {A B : Type} (f : B → Q) (g : A → list B) (l : list A) :
  sumQ (map f (l ≫= g)) == sumQ (map (λ a, sumQ (map f (g a))) l).
Proof.
  induction l as [|a l IH]; [reflexivity|].
  rewrite bind_cons, map_app, sumQ_app, IH. reflexivity.
Qed.

Lemma eval_row_expr (X : Var → Q) (n_dest i : nat) :
  eval X (row_expr n_dest i) == rowsum n_dest X i.
Proof.
  unfold eval, row_expr, rowsum. rewrite map_map.
  apply sumQ_map_ext. intros j _. simpl. lra.
Qed.

Lemma eval_col_expr (X : Var → Q) (n_sources j : nat) :
  eval X (col_expr n_sources j) == colsum n_sources X j.
Proof.
  unfold eval, col_expr, colsum. rewrite map_map.
  apply sumQ_map_ext. intros i _. simpl. lra.
Qed.

Lemma objVal_model_of (n m : nat) cost supply demand (X : Var → Q) :
  objVal (model_of n m cost supply demand) X == total_cost n m cost X.
Proof.
  unfold objVal, eval, total_cost, keys. cbn [objective model_of].
  rewrite map_map. unfold keys. rewrite sumQ_bind.
  apply sumQ_map_ext. intros i _. rewrite sumQ_bind.
  apply sumQ_map_ext. intros j _. cbn. rewrite sumQ_cons. change (sumQ []) with 0. lra.
Qed.

(** The declaration of line 123 allows the values from 0 upwards: the
    lower bound is gurobipy's default, there is no upper bound and the
    variable is continuous. *)
Lemma admits_addVar_continuous (name : string) (v : Q) :
  admits (addVar CONTINUOUS name) v ↔ 0 <= v.
Proof. unfold admits, addVar. cbn [LB UB VType]. tauto. Qed.

Lemma elem_of_new_vars (n m : nat) (k : Var) (d : GrbVar) :
  (k, d) ∈ new_vars n m ↔
  (fst k < n)%nat ∧ (snd k < m)%nat ∧ d = addVar CONTINUOUS (var_name k).
Proof.
  unfold new_vars. rewrite list_elem_of_fmap. split.
  - intros ([i j] & Heq & Hk). injection Heq as -> ->.
    apply elem_of_keys in Hk. cbn. tauto.
  - intros (Hi & Hj & ->). exists k. split; [done|].
    destruct k as [i j]. by apply elem_of_keys.
Qed.


(** Feasibility for the model is: non-negative shipments, no source ships
    more than its supply, every destination receives at least its demand. *)
Lemma feasible_model_of (n m : nat) cost supply demand (X : Var → Q) :
  feasible (model_of n m cost supply demand) X ↔
  (∀ i j, (i < n)%nat → (j < m)%nat → 0 <= X (i, j)) ∧
  (∀ i, (i < n)%nat → rowsum m X i <= supply i) ∧
  (∀ j, (j < m)%nat → demand j <= colsum n X j).
Proof.
  unfold feasible. cbn [variables constrs model_of]. split.
  - intros [Hpos Hc]. repeat split.
    + intros i j Hi Hj.
      apply (proj1 (admits_addVar_continuous (var_name (i, j)) (X (i, j)))).
      apply (Hpos (i, j)). by apply elem_of_new_vars.
    + intros i Hi.
      specialize (Hc (mkConstr (row_expr m i) LESS_EQUAL (supply i))).
      unfold holds in Hc. cbn in Hc. rewrite <- eval_row_expr. apply Hc.
      apply elem_of_app. left. apply list_elem_of_fmap. exists i.
      split; [done|]. apply elem_of_seq. lia.
    + intros j Hj.
      specialize (Hc (mkConstr (col_expr n j) GREATER_EQUAL (demand j))).
      unfold holds in Hc. cbn in Hc. rewrite <- eval_col_expr. apply Hc.
      apply elem_of_app. right. apply list_elem_of_fmap. exists j.
      split; [done|]. apply elem_of_seq. lia.
  - intros (Hpos & Hrow & Hcol). split.
    + intros [i j] d Hk. apply elem_of_new_vars in Hk as (Hi & Hj & ->).
      apply admits_addVar_continuous. by apply Hpos.
    + intros c Hc. apply elem_of_app in Hc as [Hc|Hc];
        apply list_elem_of_fmap in Hc as (k & -> & Hk); apply elem_of_seq in Hk;
        unfold holds; cbn.
      * rewrite eval_row_expr. apply Hrow. lia.
      * rewrite eval_col_expr. apply Hcol. lia.
Qed.

(** ** The outcomes of [solve_transport] *)

Section Outcomes.

Variable float : string → option Q.
Variable optimize : Model → Optimized.

(** An exception while reading the tables goes to the critical box; the
    optimiser is not reached. *)
Lemma solve_transport_read_error (self : TransportApp) (e : exn) :
  read_inputs float self = Raise e →
  solve_transport float optimize self = (self, [CriticalBox "Erreur" e]).
Proof.
  intros H. unfold solve_transport, try_except, pure.
  unfold mbind, M_bind. rewrite H. reflexivity.
Qed.

(** Once the tables are read the model goes to gurobipy, and what gurobipy
    does decides. *)
Lemma solve_transport_run (self : TransportApp) (m : Model) :
  lp float self = Ok m →
  solve_transport float optimize self =
    match optimize m with
    | GrbBuildRaise msg => (self, [CriticalBox "Erreur" (GurobiError msg)])
    | GrbRaise msg =>
        (self, [Optimize m; CriticalBox "Erreur" (GurobiError msg)])
    | GrbDone status X =>
        if (status =? OPTIMAL)%Z
        then (show_result (rowCount (cost_table self))
                          (columnCount (cost_table self)) (objVal m X) X self,
              [Optimize m])
        else (self, [Optimize m;
                     WarningBox "Résultat" "Aucune solution optimale trouvée."])
    end.
Proof.
  intros Hlp. unfold lp in Hlp.
  destruct (read_inputs float self) as [[[couts offres] demandes]|] eqn:Hin;
    [|discriminate].
  cbn [mbind result_bind fst snd] in Hlp.
  unfold solve_transport, try_except, pure, run_gurobi, emit, modify.
  unfold mbind, M_bind, mret, M_ret.
  rewrite Hin. cbv beta iota zeta. rewrite Hlp. cbv beta iota zeta.
  destruct (optimize m) as [msg|msg|status X]; [reflexivity|reflexivity|].
  destruct (status =? OPTIMAL)%Z; reflexivity.
Qed.

Lemma lp_inv (self : TransportApp) (m : Model) :
  lp float self = Ok m →
  ∃ couts offres demandes,
    read_inputs float self = Ok (couts, offres, demandes) ∧
    m = model_of (rowCount (cost_table self)) (columnCount (cost_table self))
                 (at2 couts) (at1 offres) (at1 demandes).
Proof.
  intros H.
  destruct (read_inputs float self) as [[[couts offres] demandes]|e] eqn:Hin.
  - exists couts, offres, demandes. split; [done|].
    rewrite (lp_Ok _ _ _ _ _ Hin) in H. congruence.
  - rewrite (lp_Raise _ _ _ Hin) in H. discriminate.
Qed.

(** A call without message box is a call whose optimiser run ended with
    status [OPTIMAL]. *)
Lemma succeeds_returns (self : TransportApp) :
  succeeds float optimize self ↔ ∃ cost X, returns float optimize self cost X.
Proof.
  unfold succeeds, returns. split.
  - intros H. destruct (lp float self) as [m|e] eqn:Hlp.
    + rewrite (solve_transport_run _ _ Hlp) in H |- *.
      destruct (optimize m) as [msg|msg|status X] eqn:Hopt;
        [discriminate|discriminate|].
      destruct (status =? OPTIMAL)%Z eqn:Hst; [|discriminate].
      apply Z.eqb_eq in Hst as ->. exists (objVal m X), X, m. rewrite Hopt. done.
    + destruct (read_inputs float self) as [[[couts offres] demandes]|e'] eqn:Hin.
      * rewrite (lp_Ok _ _ _ _ _ Hin) in Hlp. discriminate.
      * rewrite (solve_transport_read_error _ _ Hin) in H. discriminate.
  - intros (cost & X & m & Hlp & Hopt & _ & ->). reflexivity.
Qed.

(** The tables the user fills in are never written. *)
Lemma solve_transport_inputs (self : TransportApp) :
  let self' := fst (solve_transport float optimize self) in
  cost_table self' = cost_table self ∧
  offre_table self' = offre_table self ∧
  demande_table self' = demande_table self.
Proof.
  destruct (lp float self) as [m|e] eqn:Hlp.
  - rewrite (solve_transport_run _ _ Hlp).
    destruct (optimize m) as [msg|msg|status X]; [done|done|].
    destruct (status =? OPTIMAL)%Z; done.
  - destruct (read_inputs float self) as [[[couts offres] demandes]|e'] eqn:Hin.
    + rewrite (lp_Ok _ _ _ _ _ Hin) in Hlp. discriminate.
    + by rewrite (solve_transport_read_error _ _ Hin).
Qed.

End Outcomes.

(** ** Flow conservation and non-negativity *)

(** What a successful call under a sound optimiser has in hand. *)
Lemma returns_optimal float optimize (self : TransportApp) (cost : Q) (X : Var → Q) :
  sound_on float optimize self →
  returns float optimize self cost X →
  ∃ couts offres demandes,
    read_inputs float self = Ok (couts, offres, demandes) ∧
    optimal (model_of (rowCount (cost_table self)) (columnCount (cost_table self))
                      (at2 couts) (at1 offres) (at1 demandes)) X ∧
    cost = objVal (model_of (rowCount (cost_table self))
                            (columnCount (cost_table self))
                            (at2 couts) (at1 offres) (at1 demandes)) X.
Proof.
  intros Hsound (m & Hlp & Hopt & Hcost & _).
  destruct (lp_inv _ _ _ Hlp) as (couts & offres & demandes & Hin & ->).
  exists couts, offres, demandes.
  split; [done|]. split; [|done]. apply (Hsound _ Hlp X Hopt).
Qed.

(** When total supply equals total demand, the inequalities of the model
    leave no slack: every row sum is the supply and every column sum the
    demand. *)
Lemma balanced_no_slack (n m : nat) (supply demand : nat → Q) (X : Var → Q) :
  sumQ (map supply (seq 0 n)) == sumQ (map demand (seq 0 m)) →
  (∀ i, (i < n)%nat → rowsum m X i <= supply i) →
  (∀ j, (j < m)%nat → demand j <= colsum n X j) →
  (∀ i, (i < n)%nat → rowsum m X i == supply i) ∧
  (∀ j, (j < m)%nat → colsum n X j == demand j).
Proof.
  intros Hbal Hrow Hcol.
  assert (Hswap : sumQ (map (rowsum m X) (seq 0 n)) ==
                  sumQ (map (colsum n X) (seq 0 m))).
  { unfold rowsum, colsum. apply (sumQ_swap (λ i j, X (i, j))). }
  assert (HR : sumQ (map (rowsum m X) (seq 0 n)) <= sumQ (map supply (seq 0 n))).
  { apply sumQ_map_le. intros i Hi. apply Hrow. apply elem_of_seq in Hi. lia. }
  assert (HC : sumQ (map demand (seq 0 m)) <= sumQ (map (colsum n X) (seq 0 m))).
  { apply sumQ_map_le. intros j Hj. apply Hcol. apply elem_of_seq in Hj. lia. }
  split.
  - intros i Hi. apply (sumQ_squeeze (rowsum m X) supply (seq 0 n)).
    + intros k Hk. apply Hrow. apply elem_of_seq in Hk. lia.
    + lra.
    + apply elem_of_seq. lia.
  - intros j Hj. symmetry.
    apply (sumQ_squeeze demand (colsum n X) (seq 0 m)).
    + intros k Hk. apply Hcol. apply elem_of_seq in Hk. lia.
    + lra.
    + apply elem_of_seq. lia.
Qed.

(** C1. On a balanced instance (total supply equals total demand) every
    allocation returned by a successful call satisfies the flow-conservation
    equations: each row sum equals the supply of its source and each column
    sum equals the demand of its destination, although the model only asks
    for row sums <= supply and column sums >= demand. *)
Theorem balanced_flow_conservation float optimize (self : TransportApp)
    couts offres demandes (cost : Q) (X : Var → Q) :
  read_inputs float self = Ok (couts, offres, demandes) →
  sumQ offres == sumQ demandes →
  sound_on float optimize self →
  returns float optimize self cost X →
  (∀ i, (i < rowCount (cost_table self))%nat →
     rowsum (columnCount (cost_table self)) X i == at1 offres i) ∧
  (∀ j, (j < columnCount (cost_table self))%nat →
     colsum (rowCount (cost_table self)) X j == at1 demandes j).
Proof.
  intros Hin Hbal Hsound Hret.
  destruct (returns_optimal _ _ _ _ _ Hsound Hret)
    as (c & o & d & Hin' & [Hfeas _] & _).
  rewrite Hin in Hin'. injection Hin' as <- <- <-.
  apply feasible_model_of in Hfeas as (_ & Hrow & Hcol).
  destruct (read_inputs_Ok _ _ _ _ _ Hin) as [(Ho & Hd & _) _].
  apply balanced_no_slack; [|done|done].
  rewrite <- Ho at 1. rewrite <- Hd at 1. by rewrite <- !sumQ_at1.
Qed.

(** C3. Every entry of the allocation returned by a successful call is
    greater than or equal to zero. *)
Theorem allocation_nonnegative float optimize (self : TransportApp)
    (cost : Q) (X : Var → Q) (i j : nat) :
  sound_on float optimize self →
  returns float optimize self cost X →
  (i < rowCount (cost_table self))%nat →
  (j < columnCount (cost_table self))%nat →
  0 <= X (i, j).
Proof.
  intros Hsound Hret Hi Hj.
  destruct (returns_optimal _ _ _ _ _ Hsound Hret)
    as (c & o & d & _ & [Hfeas _] & _).
  apply feasible_model_of in Hfeas as (Hpos & _). by apply Hpos.
Qed.

(** ** Concrete runs *)

(** Unfolds the sums of a concrete grid so that [lra] sees the cells. *)
Ltac grid_sums :=
  unfold total_cost, rowsum, colsum, at1, at2, sumQ in *; cbn in *.

(** [optimal m X] for the model [m] of a small concrete grid and a concrete
    allocation [X]: feasibility is computed, minimality follows from the
    inequalities that any other feasible plan satisfies. *)
Ltac small_grid_optimal :=
  let Y := fresh "Y" in
  let Hp := fresh "Hp" in let Hr := fresh "Hr" in let Hc := fresh "Hc" in
  split;
  [ apply feasible_model_of; repeat split; intros; grid_sums;
    repeat (match goal with k : nat |- _ => destruct k; try lia end);
    cbn; lra
  | intros Y [Hp [Hr Hc]]%feasible_model_of;
    pose proof (Hp 0%nat 0%nat ltac:(cbn; lia) ltac:(cbn; lia));
    try pose proof (Hp 1%nat 0%nat ltac:(cbn; lia) ltac:(cbn; lia));
    try pose proof (Hp 2%nat 0%nat ltac:(cbn; lia) ltac:(cbn; lia));
    pose proof (Hr 0%nat ltac:(cbn; lia));
    try pose proof (Hr 1%nat ltac:(cbn; lia));
    try pose proof (Hr 2%nat ltac:(cbn; lia));
    pose proof (Hc 0%nat ltac:(cbn; lia));
    clear Hp Hr Hc; rewrite !objVal_model_of; grid_sums; lra ].

(** Soundness of an optimiser at the model of a small grid whose inputs are
    [Hin]: its answer is computed, and is either not [OPTIMAL] or optimal. *)
Ltac small_grid_sound Hin :=
  let m := fresh "m" in let Hlp := fresh "Hlp" in let X := fresh "X" in
  let Hopt := fresh "Hopt" in
  intros m Hlp X Hopt; rewrite (lp_Ok _ _ _ _ _ Hin) in Hlp;
  injection Hlp as <-; vm_compute in Hopt;
  first [ discriminate Hopt | injection Hopt as <-; small_grid_optimal ].

(** ** A balanced run *)

Lemma app_unit_inputs : read_inputs dec_float app_unit = Ok ([[1]], [5], [5]).
Proof. reflexivity. Qed.

Lemma app_unit_sound : sound_on dec_float (answer OPTIMAL 5) app_unit.
Proof. small_grid_sound app_unit_inputs. Qed.

Lemma app_unit_returns :
  returns dec_float (answer OPTIMAL 5) app_unit 5 (λ _, 5).
Proof.
  eexists. split; [apply (lp_Ok _ _ _ _ _ app_unit_inputs)|].
  split; [reflexivity|]. split; reflexivity.
Qed.

Lemma balanced_flow_conservation_witness :
  (∀ i, (i < rowCount (cost_table app_unit))%nat →
     rowsum (columnCount (cost_table app_unit)) (λ _, 5) i == at1 [5] i) ∧
  (∀ j, (j < columnCount (cost_table app_unit))%nat →
     colsum (rowCount (cost_table app_unit)) (λ _, 5) j == at1 [5] j).
Proof.
  apply (balanced_flow_conservation dec_float (answer OPTIMAL 5) app_unit
           [[1]] [5] [5] 5 (λ _, 5)).
  - reflexivity.
  - reflexivity.
  - apply app_unit_sound.
  - apply app_unit_returns.
Defined.

Lemma allocation_nonnegative_witness : 0 <= (λ _ : Var, 5) (0%nat, 0%nat).
Proof.
  apply (allocation_nonnegative dec_float (answer OPTIMAL 5) app_unit 5
           (λ _, 5) 0 0).
  - apply app_unit_sound.
  - apply app_unit_returns.
  - cbn. lia.
  - cbn. lia.
Defined.

(** ** Surplus supply *)

Lemma sumQ_map_scale {A : Type} (f : A → Q) (r : Q) (l : list A) :
  sumQ (map (λ a, f a * r) l) == sumQ (map f l) * r.
Proof.
  induction l as [|a l IH]; simpl.
  - change (sumQ []) with 0. lra.
  - rewrite !sumQ_cons, IH. lra.
Qed.

Lemma ratio_spec (n : nat) (demand : nat → Q) (X : Var → Q) (j : nat) :
  0 <= demand j → demand j <= colsum n X j →
  0 <= ratio n demand X j ∧ ratio n demand X j <= 1 ∧
  colsum n X j * ratio n demand X j == demand j.
Proof.
  intros Hd Hc. unfold ratio.
  destruct (Qeq_bool (colsum n X j) 0) eqn:E.
  - apply Qeq_bool_eq in E. repeat split; lra.
  - apply Qeq_bool_neq in E.
    assert (Hpos : 0 < colsum n X j) by lra.
    repeat split.
    + apply Qle_shift_div_l; lra.
    + apply Qle_shift_div_r; lra.
    + field. lra.
Qed.

(** With non-negative costs and demands, what a feasible plan ships beyond
    the demand can be removed without raising the cost. *)
Lemma trim_exact (n m : nat) (cost : nat → nat → Q) (supply demand : nat → Q)
    (X : Var → Q) :
  (∀ i j, (i < n)%nat → (j < m)%nat → 0 <= cost i j) →
  (∀ j, (j < m)%nat → 0 <= demand j) →
  feasible (model_of n m cost supply demand) X →
  exact_plan n m supply demand (trim n demand X) ∧
  total_cost n m cost (trim n demand X) <= total_cost n m cost X.
Proof.
  intros Hcost Hdem HX. apply feasible_model_of in HX as (Hpos & Hrow & Hcol).
  assert (Hr : ∀ j, (j < m)%nat →
    0 <= ratio n demand X j ∧ ratio n demand X j <= 1 ∧
    colsum n X j * ratio n demand X j == demand j).
  { intros j Hj. apply ratio_spec; auto. }
  assert (Hle : ∀ i j, (i < n)%nat → (j < m)%nat →
    0 <= trim n demand X (i, j) ∧ trim n demand X (i, j) <= X (i, j)).
  { intros i j Hi Hj. unfold trim. cbn [snd].
    destruct (Hr j Hj) as (H0 & H1 & _). specialize (Hpos i j Hi Hj).
    split; nra. }
  split; [repeat split|].
  - intros i j Hi Hj. by apply Hle.
  - intros i Hi. eapply Qle_trans; [|by apply Hrow].
    unfold rowsum. apply sumQ_map_le. intros j Hj. apply elem_of_seq in Hj.
    apply Hle; lia.
  - intros j Hj. unfold colsum at 1, trim. cbn [snd].
    rewrite (sumQ_map_scale (λ i, X (i, j))). by apply Hr.
  - unfold total_cost. apply sumQ_map_le. intros i Hi. apply elem_of_seq in Hi.
    apply sumQ_map_le. intros j Hj. apply elem_of_seq in Hj.
    destruct (Hle i j) as [H0 H1]; [lia..|].
    specialize (Hcost i j ltac:(lia) ltac:(lia)). nra.
Qed.

Lemma exact_plan_feasible (n m : nat) cost supply demand (Y : Var → Q) :
  exact_plan n m supply demand Y → feasible (model_of n m cost supply demand) Y.
Proof.
  intros (Hpos & Hrow & Hcol). apply feasible_model_of. repeat split; try done.
  intros j Hj. rewrite (Hcol j Hj). apply Qle_refl.
Qed.

(** C2 (amended). For every instance with non-negative costs and demands
    whose total supply strictly exceeds total demand, the total cost of a
    successful call is the least cost of shipping exactly the demanded
    quantities: the surplus supply carries no cost. *)
Theorem surplus_costs_nothing float optimize (self : TransportApp)
    couts offres demandes (cost : Q) (X : Var → Q) :
  read_inputs float self = Ok (couts, offres, demandes) →
  sumQ demandes < sumQ offres →
  (∀ i j, (i < rowCount (cost_table self))%nat →
          (j < columnCount (cost_table self))%nat → 0 <= at2 couts i j) →
  (∀ j, (j < columnCount (cost_table self))%nat → 0 <= at1 demandes j) →
  sound_on float optimize self →
  returns float optimize self cost X →
  min_exact_cost (rowCount (cost_table self)) (columnCount (cost_table self))
                 (at2 couts) (at1 offres) (at1 demandes) cost.
Proof.
  intros Hin _ Hcost Hdem Hsound Hret.
  destruct (returns_optimal _ _ _ _ _ Hsound Hret)
    as (c & o & d & Hin' & [Hfeas Hmin] & ->).
  rewrite Hin in Hin'. injection Hin' as <- <- <-.
  set (n := rowCount (cost_table self)) in *.
  set (m := columnCount (cost_table self)) in *.
  destruct (trim_exact n m _ _ _ X Hcost Hdem Hfeas) as [Hexact Hle].
  split.
  - exists (trim n (at1 demandes) X). split; [done|].
    pose proof (Hmin _ (exact_plan_feasible n m (at2 couts) _ _ _ Hexact)) as Hopt.
    rewrite !objVal_model_of in Hopt. rewrite objVal_model_of. lra.
  - intros Y HY. rewrite objVal_model_of.
    pose proof (Hmin _ (exact_plan_feasible n m (at2 couts) _ _ _ HY)) as Hopt.
    by rewrite !objVal_model_of in Hopt.
Qed.

(** ** Runs with a surplus, with a negative cost, with a negative demand *)

Lemma app_surplus_inputs : read_inputs dec_float app_surplus = Ok ([[1]], [10], [5]).
Proof. reflexivity. Qed.

Lemma app_surplus_sound : sound_on dec_float (answer OPTIMAL 5) app_surplus.
Proof. small_grid_sound app_surplus_inputs. Qed.

Lemma app_surplus_returns :
  returns dec_float (answer OPTIMAL 5) app_surplus 5 (λ _, 5).
Proof.
  eexists. split; [apply (lp_Ok _ _ _ _ _ app_surplus_inputs)|].
  split; [reflexivity|]. split; reflexivity.
Qed.

Lemma surplus_costs_nothing_witness :
  min_exact_cost (rowCount (cost_table app_surplus))
                 (columnCount (cost_table app_surplus))
                 (at2 [[1]]) (at1 [10]) (at1 [5]) 5.
Proof.
  apply (surplus_costs_nothing dec_float (answer OPTIMAL 5) app_surplus
           [[1]] [10] [5] 5 (λ _, 5)).
  - reflexivity.
  - reflexivity.
  - intros i j Hi Hj. cbn in Hi, Hj. destruct i, j; try lia. cbn. lra.
  - intros j Hj. cbn in Hj. destruct j; try lia. cbn. lra.
  - apply app_surplus_sound.
  - apply app_surplus_returns.
Defined.

Lemma app_neg_inputs : read_inputs dec_float app_neg = Ok ([[-1]], [10], [5]).
Proof. reflexivity. Qed.

Lemma app_neg_sound : sound_on dec_float (answer OPTIMAL 10) app_neg.
Proof. small_grid_sound app_neg_inputs. Qed.

Lemma app_neg_returns :
  returns dec_float (answer OPTIMAL 10) app_neg (-10) (λ _, 10).
Proof.
  eexists. split; [apply (lp_Ok _ _ _ _ _ app_neg_inputs)|].
  split; [reflexivity|]. split; reflexivity.
Qed.

(** The only plan that ships exactly the demand of [app_neg] costs -5. *)
Lemma app_neg_exact_cost (v : Q) :
  min_exact_cost 1 1 (at2 [[-1]]) (at1 [10]) (at1 [5]) v → v == -5.
Proof.
  intros [(Y & (_ & _ & Hc) & Hv) _]. specialize (Hc 0%nat ltac:(lia)).
  grid_sums. lra.
Qed.

(** C2, refuted as stated: with the cost -1, supply 10 and demand 5 the
    call succeeds with total cost -10, while shipping exactly the 5 demanded
    units costs -5. *)
Lemma surplus_costs_nothing_counterexample :
  read_inputs dec_float app_neg = Ok ([[-1]], [10], [5]) ∧
  sumQ [5] < sumQ [10] ∧
  sound_on dec_float (answer OPTIMAL 10) app_neg ∧
  returns dec_float (answer OPTIMAL 10) app_neg (-10) (λ _, 10) ∧
  ¬ min_exact_cost (rowCount (cost_table app_neg))
                   (columnCount (cost_table app_neg))
                   (at2 [[-1]]) (at1 [10]) (at1 [5]) (-10).
Proof.
  split; [reflexivity|]. split; [reflexivity|].
  split; [apply app_neg_sound|]. split; [apply app_neg_returns|].
  intros H. apply app_neg_exact_cost in H. revert H. apply Qlt_not_eq. reflexivity.
Qed.

Lemma app_negdemand_inputs :
  read_inputs dec_float app_negdemand = Ok ([[1]], [5], [-1]).
Proof. reflexivity. Qed.

Lemma app_negdemand_sound : sound_on dec_float (answer OPTIMAL 0) app_negdemand.
Proof. small_grid_sound app_negdemand_inputs. Qed.

(** A negative demand cannot be shipped exactly, so the least cost of doing
    so does not exist although the call succeeds. *)
Lemma negative_demand_no_exact_plan (v : Q) :
  returns dec_float (answer OPTIMAL 0) app_negdemand 0 (λ _, 0) ∧
  ¬ min_exact_cost 1 1 (at2 [[1]]) (at1 [5]) (at1 [-1]) v.
Proof.
  split.
  - eexists. split; [apply (lp_Ok _ _ _ _ _ app_negdemand_inputs)|].
    split; [reflexivity|]. split; reflexivity.
  - intros [(Y & (Hp & _ & Hc) & _) _].
    specialize (Hp 0%nat 0%nat ltac:(lia) ltac:(lia)).
    specialize (Hc 0%nat ltac:(lia)). grid_sums. lra.
Qed.

(** ** Inputs the program does not check *)

Section Unchecked.

Variable float : string → option Q.
Variable optimize : Model → Optimized.

(** Whenever the three tables can be read, the model of the values as read
    goes to gurobipy: the call stops before the optimiser only when gurobipy
    raises while the model is built, and otherwise calls the optimiser. *)
Lemma readable_reaches_gurobi (self : TransportApp) couts offres demandes :
  read_inputs float self = Ok (couts, offres, demandes) →
  let m := model_of (rowCount (cost_table self)) (columnCount (cost_table self))
                    (at2 couts) (at1 offres) (at1 demandes) in
  (rejects float optimize self ↔ ∃ msg, optimize m = GrbBuildRaise msg) ∧
  (∀ e, CriticalBox "Erreur" e ∈ snd (solve_transport float optimize self) →
        ∃ msg, e = GurobiError msg) ∧
  ((∀ msg, optimize m ≠ GrbBuildRaise msg) →
   ∃ rest, snd (solve_transport float optimize self) = Optimize m :: rest).
Proof.
  intros Hin m. pose proof (lp_Ok _ _ _ _ _ Hin) as Hlp. fold m in Hlp.
  unfold rejects. rewrite (solve_transport_run float optimize _ _ Hlp).
  destruct (optimize m) as [msg|msg|status X] eqn:Hopt.
  - split; [split; by eexists|]. split.
    + intros e He. apply list_elem_of_singleton in He. injection He as ->.
      by exists msg.
    + intros Hno. by destruct (Hno msg).
  - split; [split; [intros [e He]; discriminate|intros [? ?]; discriminate]|].
    split; [|by eexists].
    intros e He. cbn [snd] in He.
    apply elem_of_cons in He as [He|He]; [discriminate|].
    apply list_elem_of_singleton in He. injection He as ->. by exists msg.
  - split.
    { split; [|intros [? ?]; discriminate].
      intros [e He]. destruct (status =? OPTIMAL)%Z; discriminate. }
    split.
    + intros e He. exfalso. destruct (status =? OPTIMAL)%Z; cbn [snd] in He.
      * apply list_elem_of_singleton in He. discriminate.
      * apply elem_of_cons in He as [He|He]; [discriminate|].
        apply list_elem_of_singleton in He. discriminate.
    + intros _. destruct (status =? OPTIMAL)%Z; by eexists.
Qed.

(** C4 (amended). For every input in which some cost, supply or demand
    value is negative and every cell can be read, no sign check takes
    place: the model that holds the negative values goes to gurobipy, the
    only error the call can show is one gurobipy raised, the call stops
    before the optimiser exactly when gurobipy raises while the model is
    built and calls the optimiser otherwise, and it succeeds exactly when
    the optimiser answers [OPTIMAL]. *)
Theorem negative_values_not_checked (self : TransportApp) couts offres demandes :
  read_inputs float self = Ok (couts, offres, demandes) →
  has_negative (rowCount (cost_table self)) (columnCount (cost_table self))
               couts offres demandes →
  let m := model_of (rowCount (cost_table self)) (columnCount (cost_table self))
                    (at2 couts) (at1 offres) (at1 demandes) in
  (rejects float optimize self ↔ ∃ msg, optimize m = GrbBuildRaise msg) ∧
  (∀ e, CriticalBox "Erreur" e ∈ snd (solve_transport float optimize self) →
        ∃ msg, e = GurobiError msg) ∧
  ((∀ msg, optimize m ≠ GrbBuildRaise msg) →
   ∃ rest, snd (solve_transport float optimize self) = Optimize m :: rest) ∧
  (succeeds float optimize self ↔ ∃ X, optimize m = GrbDone OPTIMAL X).
Proof.
  intros Hin _ m.
  destruct (readable_reaches_gurobi _ _ _ _ Hin) as (Hrej & Hbox & Htr).
  fold m in Hrej, Htr.
  split; [done|]. split; [done|]. split; [done|].
  pose proof (lp_Ok _ _ _ _ _ Hin) as Hlp. fold m in Hlp.
  rewrite succeeds_returns. split.
  - intros (cost & X & m' & Hlp' & Hopt & _). rewrite Hlp in Hlp'.
    injection Hlp' as <-. by exists X.
  - intros [X HX]. exists (objVal m X), X, m. split; [exact Hlp|].
    split; [done|]. split; [reflexivity|].
    rewrite (solve_transport_run _ _ _ _ Hlp), HX. reflexivity.
Qed.

End Unchecked.

(** C10. There is an input with a negative cost entry on which a call can
    succeed, and on which the column sum of every allocation a successful
    call returns strictly exceeds the demand of the column: with one source
    of supply 10, one destination of demand 5 and the cost -1, all 10 units
    are shipped. *)
Theorem column_sum_can_exceed_demand :
  ∃ self couts offres demandes,
    read_inputs dec_float self = Ok (couts, offres, demandes) ∧
    at2 couts 0 0 < 0 ∧
    (∃ optimize cost X,
       sound_on dec_float optimize self ∧ returns dec_float optimize self cost X) ∧
    ∀ optimize cost X,
      sound_on dec_float optimize self →
      returns dec_float optimize self cost X →
      colsum (rowCount (cost_table self)) X 0 == 10 ∧
      at1 demandes 0 < colsum (rowCount (cost_table self)) X 0.
Proof.
  exists app_neg, [[-1]], [10], [5].
  split; [reflexivity|]. split; [reflexivity|]. split.
  - exists (answer OPTIMAL 10), (-10), (λ _, 10).
    split; [apply app_neg_sound|apply app_neg_returns].
  - intros optimize cost X Hsound Hret.
    destruct (returns_optimal _ _ _ _ _ Hsound Hret)
      as (c & o & d & Hin & [Hfeas Hmin] & _).
    rewrite app_neg_inputs in Hin. injection Hin as <- <- <-.
    apply feasible_model_of in Hfeas as (_ & Hr & _).
    specialize (Hr 0%nat ltac:(cbn; lia)).
    assert (Hten : feasible (model_of 1 1 (at2 [[-1]]) (at1 [10]) (at1 [5]))
                            (λ _, 10)).
    { apply feasible_model_of. repeat split; intros; grid_sums;
        repeat (match goal with k : nat |- _ => destruct k; try lia end);
        cbn; lra. }
    apply Hmin in Hten. change (rowCount (cost_table app_neg)) with 1%nat in *.
    change (columnCount (cost_table app_neg)) with 1%nat in *.
    rewrite !objVal_model_of in Hten. grid_sums. split; lra.
Qed.

(** ** Runs on unchecked inputs *)

Lemma negative_values_not_checked_witness :
  let m := model_of (rowCount (cost_table app_neg))
                    (columnCount (cost_table app_neg))
                    (at2 [[-1]]) (at1 [10]) (at1 [5]) in
  (rejects dec_float (answer OPTIMAL 10) app_neg ↔
   ∃ msg, answer OPTIMAL 10 m = GrbBuildRaise msg) ∧
  (∀ e, CriticalBox "Erreur" e
          ∈ snd (solve_transport dec_float (answer OPTIMAL 10) app_neg) →
        ∃ msg, e = GurobiError msg) ∧
  ((∀ msg, answer OPTIMAL 10 m ≠ GrbBuildRaise msg) →
   ∃ rest, snd (solve_transport dec_float (answer OPTIMAL 10) app_neg) =
           Optimize m :: rest) ∧
  (succeeds dec_float (answer OPTIMAL 10) app_neg ↔
   ∃ X, answer OPTIMAL 10 m = GrbDone OPTIMAL X).
Proof.
  apply (negative_values_not_checked dec_float (answer OPTIMAL 10) app_neg
           [[-1]] [10] [5]).
  - reflexivity.
  - left. exists 0%nat, 0%nat. cbn. split; [lia|]. split; [lia|]. reflexivity.
Defined.

(** C4, refuted as stated: the cost -1 is negative, yet the call is not
    stopped by an error; the optimiser runs and the result is displayed. *)
Lemma negative_values_counterexample :
  read_inputs dec_float app_neg = Ok ([[-1]], [10], [5]) ∧
  has_negative 1 1 [[-1]] [10] [5] ∧
  sound_on dec_float (answer OPTIMAL 10) app_neg ∧
  ¬ rejects dec_float (answer OPTIMAL 10) app_neg ∧
  succeeds dec_float (answer OPTIMAL 10) app_neg ∧
  snd (solve_transport dec_float (answer OPTIMAL 10) app_neg) =
    [Optimize (model_of 1 1 (at2 [[-1]]) (at1 [10]) (at1 [5]))].
Proof.
  split; [reflexivity|]. split.
  { left. exists 0%nat, 0%nat. split; [lia|]. split; [lia|]. reflexivity. }
  split; [apply app_neg_sound|]. split.
  { intros [e He]. vm_compute in He. discriminate. }
  split; [reflexivity|]. vm_compute. reflexivity.
Qed.

(** ** Blank cells and failures *)

Lemma mapM_Raise {A B : Type} (f : A → result B) (l : list A) (e : exn) :
  mapM f l = Raise e → ∃ a, a ∈ l ∧ f a = Raise e.
Proof.
  induction l as [|a l IH]; [discriminate|]. rewrite mapM_cons.
  destruct (f a) as [b|e'] eqn:Ea.
  - destruct (mapM f l) as [k|e'] eqn:Ek; [discriminate|].
    intros H. injection H as ->. destruct IH as (a' & Hin & Ha'); [done|].
    exists a'. split; [by right|done].
  - intros H. injection H as ->. exists a. split; [by left|done].
Qed.

Section Blank.

Variable float : string → option Q.
Variable optimize : Model → Optimized.

Lemma read_cell_blank (t : QTableWidget) (i j : nat) :
  blank t i j → read_cell float t i j = Ok 0.
Proof. unfold read_cell. by intros [-> | ->]. Qed.

(** The only way a cell makes the read fail: a non-empty text that
    [float] rejects. *)
Lemma read_cell_Raise (t : QTableWidget) (i j : nat) (e : exn) :
  read_cell float t i j = Raise e →
  ∃ text, item t i j = Some text ∧ text ≠ "" ∧ float text = None ∧
          e = ValueError text.
Proof.
  unfold read_cell. destruct (item t i j) as [text|]; [|discriminate].
  case_bool_decide as Hne; [discriminate|].
  destruct (float text) eqn:Ef; [discriminate|].
  intros H. injection H as <-. by exists text.
Qed.

Lemma read_table_Raise (t : QTableWidget) (rows cols : nat) (e : exn) :
  _read_table float t rows cols = Raise e →
  ∃ i j text, (i < rows)%nat ∧ (j < cols)%nat ∧ item t i j = Some text ∧
              text ≠ "" ∧ float text = None ∧ e = ValueError text.
Proof.
  intros H. apply mapM_Raise in H as (i & Hi & H).
  apply mapM_Raise in H as (j & Hj & H).
  apply read_cell_Raise in H as (text & ? & ? & ? & ?).
  apply elem_of_seq in Hi, Hj. exists i, j, text. repeat split; try done; lia.
Qed.

(** C9. In every table read by [_read_table], a cell that is missing or
    whose text is empty is read as the number 0: the value at its place in
    the returned matrix is 0, the read is rejected only for a non-empty text
    that [float] cannot convert, and so [solve_transport] takes unfilled
    costs, supplies and demands as zeros. *)
Theorem blank_cells_read_as_zero (t : QTableWidget) (rows cols i j : nat) :
  (i < rows)%nat → (j < cols)%nat → blank t i j →
  read_cell float t i j = Ok 0 ∧
  (∀ data, _read_table float t rows cols = Ok data →
           data !! i ≫= (λ row, row !! j) = Some 0) ∧
  (∀ e, _read_table float t rows cols = Raise e →
        ∃ i' j' text, (i' < rows)%nat ∧ (j' < cols)%nat ∧
          item t i' j' = Some text ∧ text ≠ "" ∧ float text = None ∧
          e = ValueError text) ∧
  (∀ self couts offres demandes,
     read_inputs float self = Ok (couts, offres, demandes) →
     rows = rowCount (cost_table self) → cols = columnCount (cost_table self) →
     (t = cost_table self → at2 couts i j = 0) ∧
     (t = offre_table self → j = 0%nat → at1 offres i = 0) ∧
     (t = demande_table self → i = 0%nat → at1 demandes j = 0)).
Proof.
  intros Hi Hj Hb. pose proof (read_cell_blank _ _ _ Hb) as Hcell.
  split; [done|]. split; [|split].
  - intros data Hdata. apply read_table_Ok in Hdata as [_ Hdata].
    destruct (Hdata i Hi) as (row & Hrow & _ & Hcells).
    destruct (Hcells j Hj) as (v & Hv & Hread).
    rewrite Hrow. simpl. rewrite Hv. congruence.
  - intros e. apply read_table_Raise.
  - intros self couts offres demandes Hin -> ->.
    destruct (read_inputs_Ok _ _ _ _ _ Hin) as (_ & Hc & Ho & Hd).
    split; [|split].
    + intros ->. specialize (Hc i j Hi Hj). congruence.
    + intros -> ->. specialize (Ho i Hi). congruence.
    + intros -> ->. specialize (Hd j Hj). congruence.
Qed.

(** C6 (amended). Every call that does not succeed leaves the result
    widgets as they were (no partial allocation is written) and shows
    exactly one message box: the critical box with the exception when
    reading the tables or Gurobi raised (while the model was built, or in
    the optimiser), or one and the same warning, whatever the status, when
    the optimiser ended with a status other than [OPTIMAL].  There is no
    taxonomy of errors. *)
Theorem failure_is_one_message_box (self : TransportApp) :
  ¬ succeeds float optimize self →
  fst (solve_transport float optimize self) = self ∧
  ((∃ e, read_inputs float self = Raise e ∧
         snd (solve_transport float optimize self) = [CriticalBox "Erreur" e]) ∨
   (∃ m msg, lp float self = Ok m ∧ optimize m = GrbBuildRaise msg ∧
         snd (solve_transport float optimize self) =
           [CriticalBox "Erreur" (GurobiError msg)]) ∨
   (∃ m msg, lp float self = Ok m ∧ optimize m = GrbRaise msg ∧
         snd (solve_transport float optimize self) =
           [Optimize m; CriticalBox "Erreur" (GurobiError msg)]) ∨
   (∃ m status X, lp float self = Ok m ∧ optimize m = GrbDone status X ∧
         status ≠ OPTIMAL ∧
         snd (solve_transport float optimize self) =
           [Optimize m;
            WarningBox "Résultat" "Aucune solution optimale trouvée."])).
Proof.
  intros Hfail.
  destruct (read_inputs float self) as [[[couts offres] demandes]|e] eqn:Hin.
  - pose proof (lp_Ok _ _ _ _ _ Hin) as Hlp.
    pose proof (solve_transport_run float optimize _ _ Hlp) as Hrun.
    destruct (optimize _) as [msg|msg|status X] eqn:Hopt.
    + rewrite Hrun. split; [done|]. right. left. by eexists _, msg.
    + rewrite Hrun. split; [done|]. right. right. left. by eexists _, msg.
    + destruct (status =? OPTIMAL)%Z eqn:Hst.
      * exfalso. apply Hfail. unfold succeeds. by rewrite Hrun.
      * rewrite Hrun. split; [done|]. right. right. right. eexists _, status, X.
        repeat split; try done. by apply Z.eqb_neq.
  - rewrite (solve_transport_read_error _ _ _ _ Hin). split; [done|].
    left. by exists e.
Qed.

End Blank.

(** ** Runs with blank cells and with failures *)

Example sparse_table_read :
  _read_table dec_float sparse_table 2 2 = Ok [[3; 0]; [0; 0]].
Proof. reflexivity. Qed.

Lemma blank_cells_read_as_zero_witness :
  read_cell dec_float sparse_table 0 1 = Ok 0 ∧
  (∀ data, _read_table dec_float sparse_table 2 2 = Ok data →
           data !! 0%nat ≫= (λ row, row !! 1%nat) = Some 0) ∧
  (∀ e, _read_table dec_float sparse_table 2 2 = Raise e →
        ∃ i' j' text, (i' < 2)%nat ∧ (j' < 2)%nat ∧
          item sparse_table i' j' = Some text ∧ text ≠ "" ∧
          dec_float text = None ∧ e = ValueError text) ∧
  (∀ self couts offres demandes,
     read_inputs dec_float self = Ok (couts, offres, demandes) →
     2%nat = rowCount (cost_table self) → 2%nat = columnCount (cost_table self) →
     (sparse_table = cost_table self → at2 couts 0 1 = 0) ∧
     (sparse_table = offre_table self → 1%nat = 0%nat → at1 offres 0 = 0) ∧
     (sparse_table = demande_table self → 0%nat = 0%nat → at1 demandes 1 = 0)).
Proof.
  apply (blank_cells_read_as_zero dec_float sparse_table 2 2 0 1).
  - lia.
  - lia.
  - left. reflexivity.
Defined.

Lemma app_infeasible_inputs :
  read_inputs dec_float app_infeasible = Ok ([[1]], [1], [2]).
Proof. reflexivity. Qed.

(** No plan is feasible for [app_infeasible], so no answer is optimal. *)
Lemma app_infeasible_no_plan (X : Var → Q) :
  ¬ feasible (model_of 1 1 (at2 [[1]]) (at1 [1]) (at1 [2])) X.
Proof.
  intros (_ & Hr & Hc)%feasible_model_of.
  specialize (Hr 0%nat ltac:(lia)). specialize (Hc 0%nat ltac:(lia)).
  grid_sums. lra.
Qed.

Lemma failure_is_one_message_box_witness :
  fst (solve_transport dec_float (answer INFEASIBLE 0) app_infeasible)
    = app_infeasible ∧
  ((∃ e, read_inputs dec_float app_infeasible = Raise e ∧
         snd (solve_transport dec_float (answer INFEASIBLE 0) app_infeasible)
           = [CriticalBox "Erreur" e]) ∨
   (∃ m msg, lp dec_float app_infeasible = Ok m ∧
         answer INFEASIBLE 0 m = GrbBuildRaise msg ∧
         snd (solve_transport dec_float (answer INFEASIBLE 0) app_infeasible) =
           [CriticalBox "Erreur" (GurobiError msg)]) ∨
   (∃ m msg, lp dec_float app_infeasible = Ok m ∧
         answer INFEASIBLE 0 m = GrbRaise msg ∧
         snd (solve_transport dec_float (answer INFEASIBLE 0) app_infeasible) =
           [Optimize m; CriticalBox "Erreur" (GurobiError msg)]) ∨
   (∃ m status X, lp dec_float app_infeasible = Ok m ∧
         answer INFEASIBLE 0 m = GrbDone status X ∧
         status ≠ OPTIMAL ∧
         snd (solve_transport dec_float (answer INFEASIBLE 0) app_infeasible) =
           [Optimize m;
            WarningBox "Résultat" "Aucune solution optimale trouvée."])).
Proof.
  apply (failure_is_one_message_box dec_float (answer INFEASIBLE 0) app_infeasible).
  unfold succeeds. vm_compute. discriminate.
Defined.

(** C6, refuted as stated: on an instance without feasible plan, an
    optimiser run that ends [INFEASIBLE] and one that ends on the time limit
    are reported by the very same warning box; the caller receives no typed
    error. *)
Lemma failure_kinds_counterexample :
  (∀ X, ¬ feasible (model_of 1 1 (at2 [[1]]) (at1 [1]) (at1 [2])) X) ∧
  INFEASIBLE ≠ TIME_LIMIT ∧
  ¬ succeeds dec_float (answer INFEASIBLE 0) app_infeasible ∧
  ¬ succeeds dec_float (answer TIME_LIMIT 0) app_infeasible ∧
  solve_transport dec_float (answer INFEASIBLE 0) app_infeasible =
    solve_transport dec_float (answer TIME_LIMIT 0) app_infeasible ∧
  snd (solve_transport dec_float (answer INFEASIBLE 0) app_infeasible) =
    [Optimize (model_of 1 1 (at2 [[1]]) (at1 [1]) (at1 [2]));
     WarningBox "Résultat" "Aucune solution optimale trouvée."].
Proof.
  split; [apply app_infeasible_no_plan|].
  split; [discriminate|].
  split; [unfold succeeds; vm_compute; discriminate|].
  split; [unfold succeeds; vm_compute; discriminate|].
  split; reflexivity.
Qed.

(** ** Repeated calls *)

Lemma fmt2_Qeq (p q : Q) : p == q → fmt2 p = fmt2 q.
Proof. intros H. unfold fmt2. by rewrite (Qred_complete p q H). Qed.

(** *** What [setItem] writes *)

Lemma tableIndex_in_range (t : QTableWidget) (i j : nat) :
  in_range t i j = true →
  (tableIndex t i j < rowCount t * columnCount t)%nat.
Proof.
  unfold in_range, tableIndex. intros [Hi%Nat.ltb_lt Hj%Nat.ltb_lt]%andb_true_iff.
  nia.
Qed.

(** Inside the table the two indexes name the cell that is written. *)
Lemma place_in_range (t : QTableWidget) (i j : nat) :
  in_range t i j = true → place t i j = Some (i, j).
Proof.
  intros Hin. pose proof (tableIndex_in_range _ _ _ Hin) as Hk.
  unfold place. cbv zeta. rewrite (proj2 (Nat.ltb_lt _ _) Hk).
  unfold in_range in Hin.
  apply andb_true_iff in Hin as [Hi%Nat.ltb_lt Hj%Nat.ltb_lt].
  unfold tableIndex. f_equal. f_equal.
  - rewrite Nat.div_add_l by lia. rewrite Nat.div_small by done. lia.
  - rewrite Nat.add_comm, Nat.Div0.mod_add. by apply Nat.mod_small.
Qed.

(** The cell that is written lies in the table, at the place computed from
    the two indexes. *)
Lemma place_Some (t : QTableWidget) (a b i j : nat) :
  place t a b = Some (i, j) →
  in_range t i j = true ∧ tableIndex t a b = tableIndex t i j.
Proof.
  unfold place. cbv zeta.
  destruct (_ <? _)%nat eqn:Hk; [|discriminate]. apply Nat.ltb_lt in Hk.
  intros H. injection H as <- <-.
  assert (Hc : (columnCount t ≠ 0)%nat) by (intros H0; rewrite H0 in Hk; lia).
  split.
  - unfold in_range. apply andb_true_iff. split; apply Nat.ltb_lt.
    + apply Nat.Div0.div_lt_upper_bound. lia.
    + by apply Nat.mod_upper_bound.
  - unfold tableIndex at 2.
    rewrite (Nat.div_mod_eq (tableIndex t a b) (columnCount t)) at 1. lia.
Qed.

Lemma place_dims (t u : QTableWidget) (i j : nat) :
  rowCount t = rowCount u → columnCount t = columnCount u →
  place t i j = place u i j.
Proof. unfold place, tableIndex. by intros -> ->. Qed.

Lemma dims_setItem (t : QTableWidget) (i j : nat) (text : string) :
  rowCount (setItem t i j text) = rowCount t ∧
  columnCount (setItem t i j text) = columnCount t.
Proof. unfold setItem. by destruct (place t i j). Qed.

Lemma in_range_setItem (t : QTableWidget) (i j : nat) (text : string) (i' j' : nat) :
  in_range (setItem t i j text) i' j' = in_range t i' j'.
Proof.
  unfold in_range. by destruct (dims_setItem t i j text) as [-> ->].
Qed.

Lemma items_setItem (t : QTableWidget) (i j : nat) (text : string)
    (c : nat * nat) :
  items (setItem t i j text) !! c =
  if bool_decide (place t i j = Some c) then Some text else items t !! c.
Proof.
  unfold setItem. destruct (place t i j) as [c'|]; cbn [items].
  - case_bool_decide as Heq.
    + injection Heq as ->. by rewrite lookup_insert_eq.
    + rewrite lookup_insert_ne; [done|congruence].
  - by rewrite bool_decide_eq_false_2.
Qed.

Lemma item_setItem (t : QTableWidget) (i j : nat) (text : string) (i' j' : nat) :
  item (setItem t i j text) i' j' =
  if bool_decide (place t i j = Some (i', j')) then Some text else item t i' j'.
Proof.
  unfold item. rewrite in_range_setItem, items_setItem.
  case_bool_decide as Heq; [|done].
  apply place_Some in Heq as [-> _]. done.
Qed.

(** *** The loop of lines 137-141 *)

Lemma dims_foldl_setItem (f : Var → string) (ks : list Var) (t : QTableWidget) :
  rowCount (foldl (λ t k, setItem t (fst k) (snd k) (f k)) t ks) = rowCount t ∧
  columnCount (foldl (λ t k, setItem t (fst k) (snd k) (f k)) t ks) = columnCount t.
Proof.
  revert t. induction ks as [|k ks IH]; intros t; [done|].
  cbn [foldl]. destruct (IH (setItem t k.1 k.2 (f k))) as [-> ->].
  apply dims_setItem.
Qed.

(** A cell no key of the loop is placed on keeps its item. *)
Lemma items_foldl_setItem_miss (f : Var → string) (ks : list Var)
    (t : QTableWidget) (c : nat * nat) :
  (∀ k, k ∈ ks → place t (fst k) (snd k) ≠ Some c) →
  items (foldl (λ t k, setItem t (fst k) (snd k) (f k)) t ks) !! c = items t !! c.
Proof.
  revert t. induction ks as [|k ks IH]; intros t Hmiss; [done|].
  cbn [foldl]. destruct (dims_setItem t k.1 k.2 (f k)) as [Hr Hc].
  rewrite IH.
  - rewrite items_setItem, bool_decide_eq_false_2; [done|].
    apply Hmiss. by left.
  - intros k' Hk'. rewrite (place_dims _ t) by done. apply Hmiss. by right.
Qed.

Lemma item_foldl_setItem_miss (f : Var → string) (ks : list Var)
    (t : QTableWidget) (i j : nat) :
  (∀ k, k ∈ ks → place t (fst k) (snd k) ≠ Some (i, j)) →
  item (foldl (λ t k, setItem t (fst k) (snd k) (f k)) t ks) i j = item t i j.
Proof.
  intros Hmiss. unfold item, in_range.
  destruct (dims_foldl_setItem f ks t) as [-> ->].
  by rewrite items_foldl_setItem_miss.
Qed.

(** A cell shows what the last key placed on it wrote. *)
Lemma item_foldl_setItem_last (f : Var → string) (l1 l2 : list Var) (k : Var)
    (t : QTableWidget) (i j : nat) :
  place t (fst k) (snd k) = Some (i, j) →
  (∀ k', k' ∈ l2 → place t (fst k') (snd k') ≠ Some (i, j)) →
  item (foldl (λ t k, setItem t (fst k) (snd k) (f k)) t (l1 ++ k :: l2)) i j =
  Some (f k).
Proof.
  intros Hk Hmiss. rewrite foldl_app. cbn [foldl].
  set (t1 := foldl (λ t k, setItem t (fst k) (snd k) (f k)) t l1).
  destruct (dims_foldl_setItem f l1 t) as [Hr Hc]. fold t1 in Hr, Hc.
  destruct (dims_setItem t1 k.1 k.2 (f k)) as [Hr' Hc'].
  rewrite item_foldl_setItem_miss.
  - rewrite item_setItem, bool_decide_eq_true_2; [done|].
    by rewrite (place_dims _ t).
  - intros k' Hk'. rewrite (place_dims _ t) by congruence. by apply Hmiss.
Qed.

(** The keys of the grid, cut at one of them: the keys that follow it are
    in a later row, or in its row and a later column. *)
Lemma keys_split (n m i j : nat) :
  (i < n)%nat → (j < m)%nat →
  ∃ l1 l2, keys n m = l1 ++ (i, j) :: l2 ∧
           ∀ k, k ∈ l2 → (i < fst k)%nat ∨ (fst k = i ∧ (j < snd k)%nat).
Proof.
  intros Hi Hj. unfold keys.
  assert (Hn : seq 0 n = seq 0 i ++ i :: seq (S i) (n - S i)).
  { replace n with (i + S (n - S i))%nat at 1 by lia.
    by rewrite seq_app, <- cons_seq. }
  assert (Hm : seq 0 m = seq 0 j ++ j :: seq (S j) (m - S j)).
  { replace m with (j + S (m - S j))%nat at 1 by lia.
    by rewrite seq_app, <- cons_seq. }
  assert (Hrow : (seq 0 m ≫= λ b, [(i, b)]) =
                 (seq 0 j ≫= λ b, [(i, b)])
                   ++ (i, j) :: (seq (S j) (m - S j) ≫= λ b, [(i, b)])).
  { rewrite Hm at 1. by rewrite bind_app, bind_cons. }
  rewrite Hn, bind_app, bind_cons. cbv beta. rewrite Hrow.
  rewrite <- app_assoc, <- app_comm_cons, app_assoc.
  eexists _, _. split; [reflexivity|].
  intros [a b] Hk. cbn [fst snd]. apply elem_of_app in Hk as [Hk|Hk].
  - apply list_elem_of_bind in Hk as (b' & Hk & Hb'%elem_of_seq).
    apply list_elem_of_singleton in Hk. injection Hk as -> ->. right. lia.
  - apply list_elem_of_bind in Hk as (a' & Hk & Ha'%elem_of_seq).
    apply list_elem_of_bind in Hk as (b' & Hk & _).
    apply list_elem_of_singleton in Hk. injection Hk as -> ->. left. lia.
Qed.

(** A key that follows [(i, j)] is not placed on the cell [(i, j)] of the
    table. *)
Lemma place_later (t : QTableWidget) (i j a b : nat) :
  in_range t i j = true →
  (i < a)%nat ∨ (a = i ∧ (j < b)%nat) →
  place t a b ≠ Some (i, j).
Proof.
  intros Hin Hlater [_ Heq]%place_Some. unfold tableIndex in Heq.
  unfold in_range in Hin.
  apply andb_true_iff in Hin as [_ Hj%Nat.ltb_lt]. nia.
Qed.

(** A key of a grid no wider than the table is placed on its own cell, if
    anywhere. *)
Lemma place_narrow (t : QTableWidget) (a b : nat) (c : nat * nat) :
  (b < columnCount t)%nat → place t a b = Some c → c = (a, b).
Proof.
  intros Hb Hp. destruct (in_range t a b) eqn:Hin.
  - rewrite (place_in_range _ _ _ Hin) in Hp. congruence.
  - exfalso. unfold place in Hp. cbv zeta in Hp.
    destruct (_ <? _)%nat eqn:Hk; [|discriminate]. apply Nat.ltb_lt in Hk.
    unfold in_range in Hin. rewrite (proj2 (Nat.ltb_lt _ _) Hb), andb_true_r in Hin.
    apply Nat.ltb_ge in Hin. unfold tableIndex in Hk. nia.
Qed.

Lemma item_show_result (n m : nat) (cost : Q) (X : Var → Q)
    (self : TransportApp) (i j : nat) :
  (i < n)%nat → (j < m)%nat → in_range (result_table self) i j = true →
  item (result_table (show_result n m cost X self)) i j = Some (fmt2 (X (i, j))).
Proof.
  intros Hi Hj Hin. unfold show_result. cbn [result_table].
  destruct (keys_split n m i j Hi Hj) as (l1 & l2 & -> & Hlater).
  apply (item_foldl_setItem_last (λ k, fmt2 (X k)) l1 l2 (i, j)).
  - by apply place_in_range.
  - intros [a b] Hk. apply place_later; [done|]. by apply Hlater.
Qed.

Section Repeated.

Variable float : string → option Q.

Lemma same_inputs_read (a b : TransportApp) :
  same_inputs a b → read_inputs float a = read_inputs float b.
Proof. intros (Hc & Ho & Hd). unfold read_inputs. by rewrite Hc, Ho, Hd. Qed.

Lemma same_inputs_lp (a b : TransportApp) :
  same_inputs a b → lp float a = lp float b.
Proof.
  intros H. unfold lp. rewrite (same_inputs_read _ _ H).
  destruct H as (-> & _). done.
Qed.

(** C7. Solving the same instance twice yields exactly the same total cost:
    whatever optimal allocation each of the two runs of the optimiser
    picks, the two objective values are equal and the result label shows
    the same text. *)
Theorem same_instance_same_cost (optimize1 optimize2 : Model → Optimized)
    (self1 self2 : TransportApp) (cost1 cost2 : Q) (X1 X2 : Var → Q) :
  same_inputs self1 self2 →
  sound_on float optimize1 self1 →
  sound_on float optimize2 self2 →
  returns float optimize1 self1 cost1 X1 →
  returns float optimize2 self2 cost2 X2 →
  cost1 == cost2 ∧
  result_label (fst (solve_transport float optimize1 self1)) =
  result_label (fst (solve_transport float optimize2 self2)).
Proof.
  intros Hsame Hs1 Hs2 Hr1 Hr2.
  destruct (returns_optimal _ _ _ _ _ Hs1 Hr1)
    as (c1 & o1 & d1 & Hin1 & [Hf1 Hmin1] & Hc1).
  destruct (returns_optimal _ _ _ _ _ Hs2 Hr2)
    as (c2 & o2 & d2 & Hin2 & [Hf2 Hmin2] & Hc2).
  rewrite (same_inputs_read _ _ Hsame), Hin2 in Hin1.
  injection Hin1 as <- <- <-.
  destruct Hsame as (Hct & _). rewrite Hct in *.
  assert (Heq : cost1 == cost2).
  { subst cost1 cost2. apply Qle_antisym; [by apply Hmin1|by apply Hmin2]. }
  split; [done|].
  destruct Hr1 as (m1 & _ & _ & _ & ->). destruct Hr2 as (m2 & _ & _ & _ & ->).
  cbn [fst result_label show_result]. by rewrite (fmt2_Qeq _ _ Heq).
Qed.

Variable optimize : Model → Optimized.

(** C8 (amended). A call reads the three input tables only and never
    writes them: two states with the same input tables produce the same
    trace of optimiser calls and message boxes, and on success the same
    label and the same texts in the cells of the grid.  The result widgets
    do survive the call: it writes them on success, and on failure it
    leaves in them whatever an earlier call wrote. *)
Theorem call_reads_inputs_only (self1 self2 : TransportApp) :
  same_inputs self1 self2 →
  snd (solve_transport float optimize self1) =
    snd (solve_transport float optimize self2) ∧
  same_inputs (fst (solve_transport float optimize self1)) self1 ∧
  (succeeds float optimize self1 →
   result_label (fst (solve_transport float optimize self1)) =
     result_label (fst (solve_transport float optimize self2)) ∧
   ∀ i j, (i < rowCount (cost_table self1))%nat →
          (j < columnCount (cost_table self1))%nat →
          in_range (result_table self1) i j = true →
          in_range (result_table self2) i j = true →
          item (result_table (fst (solve_transport float optimize self1))) i j =
          item (result_table (fst (solve_transport float optimize self2))) i j) ∧
  (¬ succeeds float optimize self1 →
   fst (solve_transport float optimize self1) = self1 ∧
   fst (solve_transport float optimize self2) = self2).
Proof.
  intros Hsame. pose proof (same_inputs_read _ _ Hsame) as Hread.
  pose proof (same_inputs_lp _ _ Hsame) as Hlp.
  split; [|split; [apply solve_transport_inputs|]].
  - destruct (lp float self1) as [m|e] eqn:H1.
    + rewrite (solve_transport_run _ _ _ _ H1).
      rewrite (solve_transport_run float optimize self2 m) by congruence.
      destruct (optimize m) as [msg|msg|status X]; [done|done|].
      by destruct (status =? OPTIMAL)%Z.
    + destruct (read_inputs float self1) as [[[c o] d]|e'] eqn:Hin.
      * rewrite (lp_Ok _ _ _ _ _ Hin) in H1. discriminate.
      * rewrite (solve_transport_read_error _ _ _ _ Hin).
        rewrite (solve_transport_read_error float optimize self2 e') by congruence.
        done.
  - destruct (lp float self1) as [m|e] eqn:H1.
    + unfold succeeds. rewrite (solve_transport_run _ _ _ _ H1).
      rewrite (solve_transport_run float optimize self2 m) by congruence.
      destruct Hsame as (Hct & _). rewrite <- Hct.
      destruct (optimize m) as [msg|msg|status X];
        [split; [discriminate|done]|split; [discriminate|done]|].
      destruct (status =? OPTIMAL)%Z; [|split; [discriminate|done]].
      split; [|intros []; reflexivity].
      intros _. split; [done|]. intros i j Hi Hj Hin1 Hin2. cbn [fst].
      by rewrite !item_show_result.
    + destruct (read_inputs float self1) as [[[c o] d]|e'] eqn:Hin.
      * rewrite (lp_Ok _ _ _ _ _ Hin) in H1. discriminate.
      * unfold succeeds. rewrite (solve_transport_read_error _ _ _ _ Hin).
        rewrite (solve_transport_read_error float optimize self2 e') by congruence.
        split; [discriminate|done].
Qed.

End Repeated.

(** ** Runs of repeated calls *)

Example app_tie_again_eq :
  app_tie_again = fst (solve_transport dec_float (ship_from 0 5) app_tie).
Proof. vm_compute. reflexivity. Qed.

Example app_second_call_eq :
  app_second_call =
  edit_demande (table 1 1 [cell 0 0 "7"])
               (fst (solve_transport dec_float one_cell_opt app_unit)).
Proof. vm_compute. reflexivity. Qed.

Lemma app_tie_inputs :
  read_inputs dec_float app_tie = Ok ([[1]; [1]], [5; 5], [5]).
Proof. reflexivity. Qed.

Lemma app_tie_again_inputs :
  read_inputs dec_float app_tie_again = Ok ([[1]; [1]], [5; 5], [5]).
Proof. reflexivity. Qed.

Lemma app_tie_sound : sound_on dec_float (ship_from 0 5) app_tie.
Proof. small_grid_sound app_tie_inputs. Qed.

Lemma app_tie_again_sound : sound_on dec_float (ship_from 1 5) app_tie_again.
Proof. small_grid_sound app_tie_again_inputs. Qed.

(** The first call ships from source 0, the second from source 1. *)
Example app_tie_allocations :
  item (result_table app_tie_again) 0 0 = Some "5.00" ∧
  item (result_table app_tie_again) 1 0 = Some "0.00" ∧
  item (result_table
          (fst (solve_transport dec_float (ship_from 1 5) app_tie_again))) 0 0
    = Some "0.00" ∧
  item (result_table
          (fst (solve_transport dec_float (ship_from 1 5) app_tie_again))) 1 0
    = Some "5.00".
Proof. repeat split; reflexivity. Qed.

Lemma same_instance_same_cost_witness :
  5 == 5 ∧
  result_label (fst (solve_transport dec_float (ship_from 0 5) app_tie)) =
  result_label (fst (solve_transport dec_float (ship_from 1 5) app_tie_again)).
Proof.
  apply (same_instance_same_cost dec_float (ship_from 0 5) (ship_from 1 5)
           app_tie app_tie_again 5 5
           (λ x, if (fst x =? 0)%nat then 5 else 0)
           (λ x, if (fst x =? 1)%nat then 5 else 0)).
  - repeat split; reflexivity.
  - apply app_tie_sound.
  - apply app_tie_again_sound.
  - eexists. split; [apply (lp_Ok _ _ _ _ _ app_tie_inputs)|].
    split; [reflexivity|]. split; reflexivity.
  - eexists. split; [apply (lp_Ok _ _ _ _ _ app_tie_again_inputs)|].
    split; [reflexivity|]. split; reflexivity.
Defined.

Lemma call_reads_inputs_only_witness :
  snd (solve_transport dec_float one_cell_opt app_second_call) =
    snd (solve_transport dec_float one_cell_opt app_first_call) ∧
  same_inputs (fst (solve_transport dec_float one_cell_opt app_second_call))
              app_second_call ∧
  (succeeds dec_float one_cell_opt app_second_call →
   result_label (fst (solve_transport dec_float one_cell_opt app_second_call)) =
     result_label (fst (solve_transport dec_float one_cell_opt app_first_call)) ∧
   ∀ i j, (i < rowCount (cost_table app_second_call))%nat →
          (j < columnCount (cost_table app_second_call))%nat →
          in_range (result_table app_second_call) i j = true →
          in_range (result_table app_first_call) i j = true →
          item (result_table
                  (fst (solve_transport dec_float one_cell_opt app_second_call))) i j =
          item (result_table
                  (fst (solve_transport dec_float one_cell_opt app_first_call))) i j) ∧
  (¬ succeeds dec_float one_cell_opt app_second_call →
   fst (solve_transport dec_float one_cell_opt app_second_call) = app_second_call ∧
   fst (solve_transport dec_float one_cell_opt app_first_call) = app_first_call).
Proof.
  apply (call_reads_inputs_only dec_float one_cell_opt
           app_second_call app_first_call).
  repeat split; reflexivity.
Defined.

Lemma app_unit_sound_one_cell : sound_on dec_float one_cell_opt app_unit.
Proof. small_grid_sound app_unit_inputs. Qed.

Lemma app_second_call_inputs :
  read_inputs dec_float app_second_call = Ok ([[1]], [5], [7]).
Proof. reflexivity. Qed.

Lemma app_second_call_sound : sound_on dec_float one_cell_opt app_second_call.
Proof. small_grid_sound app_second_call_inputs. Qed.

(** C8, refuted as stated: after a first call on supply 5 and demand 5 the
    demand is raised to 7.  The second call fails, and the result widgets
    still show the allocation and the cost of the first call, whereas the
    same tables in a fresh window leave them empty: the outcome of the call
    depends on the earlier one. *)
Lemma call_purity_counterexample :
  sound_on dec_float one_cell_opt app_unit ∧
  sound_on dec_float one_cell_opt app_second_call ∧
  same_inputs app_second_call app_first_call ∧
  result_label (fst (solve_transport dec_float one_cell_opt app_second_call))
    = "Coût total minimal : 5.00" ∧
  result_label (fst (solve_transport dec_float one_cell_opt app_first_call))
    = "Coût total minimal : " ∧
  item (result_table
          (fst (solve_transport dec_float one_cell_opt app_second_call))) 0 0
    = Some "5.00" ∧
  item (result_table
          (fst (solve_transport dec_float one_cell_opt app_first_call))) 0 0
    = None.
Proof.
  split; [apply app_unit_sound_one_cell|].
  split; [apply app_second_call_sound|].
  repeat split; reflexivity.
Qed.

(** ** More on [_read_table] *)

Lemma mapM_app_Raise {A B : Type} (f : A → result B) (l1 l2 : list A)
    (a : A) (e : exn) :
  (∀ b, b ∈ l1 → ∃ v, f b = Ok v) → f a = Raise e →
  mapM f (l1 ++ a :: l2) = Raise e.
Proof.
  induction l1 as [|b l1 IH]; intros Hok Ha; cbn [app]; rewrite mapM_cons.
  - by rewrite Ha.
  - destruct (Hok b) as [v Hv]; [by left|]. rewrite Hv, IH; [done| |done].
    intros c Hc. apply Hok. by right.
Qed.

(** [mapM] over [range(n)] raises what the first failing index raises. *)
Lemma mapM_range_Raise {B : Type} (f : nat → result B) (n : nat) (e : exn) :
  mapM f (seq 0 n) = Raise e ↔
  ∃ i, (i < n)%nat ∧ f i = Raise e ∧ ∀ k, (k < i)%nat → ∃ v, f k = Ok v.
Proof.
  split.
  - revert e. induction n as [|n IH]; intros e.
    + discriminate.
    + rewrite seq_S. cbn [Nat.add]. intros H.
      destruct (mapM f (seq 0 n)) as [k|e'] eqn:Hn.
      * apply mapM_range_Ok in Hn as [Hlen Hn].
        destruct (f n) as [v|e''] eqn:Hfn.
        -- exfalso.
           assert (Hall : mapM f (seq 0 n ++ [n]) = Ok (k ++ [v])).
           { apply mapM_Ok_Forall2, Forall2_app; [|by repeat constructor].
             apply mapM_Ok_Forall2, mapM_range_Ok. done. }
           congruence.
        -- exists n. split; [lia|].
           assert (Hall : mapM f (seq 0 n ++ [n]) = Raise e'').
           { apply mapM_app_Raise; [|done]. intros b Hb%elem_of_seq.
             destruct (Hn b) as (v & _ & Hv); [lia|]. by exists v. }
           split; [congruence|]. intros i Hi.
           destruct (Hn i Hi) as (v & _ & Hv). by exists v.
      * destruct (IH e' eq_refl) as (i & Hi & Hf & Hbefore).
        assert (Hall : mapM f (seq 0 n ++ [n]) = Raise e').
        { replace (seq 0 n) with (seq 0 i ++ i :: seq (S i) (n - S i)).
          - rewrite <- app_assoc. cbn [app]. apply mapM_app_Raise; [|done].
            intros b Hb%elem_of_seq. apply Hbefore. lia.
          - change (i :: seq (S i) (n - S i)) with (seq i (S (n - S i))).
            rewrite <- seq_app. f_equal. lia. }
        exists i. split; [lia|]. split; [congruence|done].
  - intros (i & Hi & Hf & Hbefore).
    replace (seq 0 n) with (seq 0 i ++ i :: seq (S i) (n - S i)).
    + apply mapM_app_Raise; [|done]. intros b Hb%elem_of_seq. apply Hbefore. lia.
    + change (i :: seq (S i) (n - S i)) with (seq i (S (n - S i))).
      rewrite <- seq_app. f_equal. lia.
Qed.

Section ReadFacts.

Variable float : string → option Q.

Lemma read_cell_Raise_iff (t : QTableWidget) (i j : nat) (e : exn) :
  read_cell float t i j = Raise e ↔
  ∃ text, item t i j = Some text ∧ text ≠ "" ∧ float text = None ∧
          e = ValueError text.
Proof.
  split; [apply read_cell_Raise|].
  intros (text & Hitem & Hne & Hf & ->). unfold read_cell.
  rewrite Hitem, bool_decide_eq_false_2, Hf; done.
Qed.

Lemma read_cell_Ok_iff (t : QTableWidget) (i j : nat) :
  (∃ v, read_cell float t i j = Ok v) ↔ ¬ unreadable float t i j.
Proof.
  split.
  - intros [v Hv] (text & Hitem & Hne & Hf).
    assert (read_cell float t i j = Raise (ValueError text)) as Hr.
    { apply read_cell_Raise_iff. by exists text. }
    congruence.
  - intros Hok. destruct (read_cell float t i j) as [v|e] eqn:Hr; [by exists v|].
    exfalso. apply Hok. apply read_cell_Raise in Hr as (text & ? & ? & ? & _).
    by exists text.
Qed.

(** X1. Whenever [_read_table] returns, the matrix has exactly [rows] rows
    of exactly [cols] entries each, whatever the dimensions of the table. *)
Theorem read_table_shape (t : QTableWidget) (rows cols : nat)
    (data : list (list Q)) :
  _read_table float t rows cols = Ok data →
  length data = rows ∧ ∀ row, row ∈ data → length row = cols.
Proof.
  intros [Hlen H]%read_table_Ok. split; [done|].
  intros row [i Hi]%list_elem_of_lookup.
  destruct (H i) as (row' & Hrow' & Hl & _).
  - rewrite <- Hlen. by eapply lookup_lt_Some.
  - congruence.
Qed.

(** X2. [_read_table] raises exactly when some cell of the grid holds a
    non-empty text that [float] rejects, and the exception it raises is the
    [ValueError] of the first such cell in reading order (row by row, left
    to right). *)
Theorem read_table_first_error (t : QTableWidget) (rows cols : nat) (e : exn) :
  _read_table float t rows cols = Raise e ↔
  ∃ i j text,
    (i < rows)%nat ∧ (j < cols)%nat ∧
    item t i j = Some text ∧ text ≠ "" ∧ float text = None ∧
    e = ValueError text ∧
    ∀ i' j', (i' < rows)%nat → (j' < cols)%nat → visited_before i' j' i j →
             ¬ unreadable float t i' j'.
Proof.
  unfold _read_table. rewrite mapM_range_Raise. split.
  - intros (i & Hi & Hrow & Hrows).
    apply mapM_range_Raise in Hrow as (j & Hj & Hcell & Hcells).
    apply read_cell_Raise in Hcell as (text & Hitem & Hne & Hf & ->).
    exists i, j, text. repeat split; try done.
    intros i' j' Hi' Hj' [Hlt|[-> Hlt]].
    + destruct (Hrows i' Hlt) as [row Hrow].
      apply mapM_range_Ok in Hrow as [_ Hrow].
      destruct (Hrow j' Hj') as (v & _ & Hv). apply read_cell_Ok_iff. by exists v.
    + apply read_cell_Ok_iff. by apply Hcells.
  - intros (i & j & text & Hi & Hj & Hitem & Hne & Hf & -> & Hbefore).
    exists i. split; [done|]. split.
    + apply mapM_range_Raise. exists j. split; [done|]. split.
      * apply read_cell_Raise_iff. by exists text.
      * intros k Hk. apply read_cell_Ok_iff, Hbefore; [done|lia|].
        right. done.
    + intros k Hk.
      destruct (mapM (λ j0, read_cell float t k j0) (seq 0 cols)) as [row|e] eqn:Hr;
        [by exists row|].
      exfalso. apply mapM_range_Raise in Hr as (j' & Hj' & Hcell & _).
      apply read_cell_Raise in Hcell as (text' & ? & ? & ? & _).
      apply (Hbefore k j'); [lia|done|by left|]. by exists text'.
Qed.

(** X3. [_read_table] returns a matrix exactly when no cell of the grid
    holds a non-empty text that [float] rejects; cells outside the grid are
    never looked at. *)
Theorem read_table_returns_iff (t : QTableWidget) (rows cols : nat) :
  (∃ data, _read_table float t rows cols = Ok data) ↔
  ∀ i j, (i < rows)%nat → (j < cols)%nat → ¬ unreadable float t i j.
Proof.
  split.
  - intros [data [_ H]%read_table_Ok] i j Hi Hj.
    destruct (H i Hi) as (row & _ & _ & Hrow).
    destruct (Hrow j Hj) as (v & _ & Hv). apply read_cell_Ok_iff. by exists v.
  - intros Hok. destruct (_read_table float t rows cols) as [data|e] eqn:Hr;
      [by exists data|].
    exfalso. apply read_table_Raise in Hr as (i & j & text & Hi & Hj & ? & ? & ? & _).
    apply (Hok i j Hi Hj). by exists text.
Qed.

End ReadFacts.

Lemma read_table_shape_witness :
  length [[3; 0]; [0; 0]] = 2%nat ∧
  ∀ row, row ∈ [[3; 0]; [0; 0]] → length row = 2%nat.
Proof.
  apply (read_table_shape dec_float sparse_table 2 2 [[3; 0]; [0; 0]]).
  reflexivity.
Defined.

(** Of the two cells that are not numbers, the one read first is reported. *)
Example two_bad_cells_error :
  _read_table dec_float two_bad_cells 2 2 = Raise (ValueError "x").
Proof. reflexivity. Qed.

(** ** More on [solve_transport] *)

Lemma sumQ_nonneg {A : Type} (f : A → Q) (l : list A) :
  (∀ a, a ∈ l → 0 <= f a) → 0 <= sumQ (map f l).
Proof.
  induction l as [|a l IH]; intros H; simpl.
  - apply Qle_refl.
  - rewrite sumQ_cons.
    assert (0 <= f a) by (apply H; by left).
    assert (0 <= sumQ (map f l)) by (apply IH; intros; apply H; by right).
    lra.
Qed.

Lemma sumQ_term_le {A : Type} (f : A → Q) (l : list A) (a : A) :
  (∀ b, b ∈ l → 0 <= f b) → a ∈ l → f a <= sumQ (map f l).
Proof.
  induction l as [|b l IH]; intros H Ha; [inversion Ha|].
  simpl. rewrite sumQ_cons.
  assert (0 <= f b) by (apply H; by left).
  assert (0 <= sumQ (map f l)) by (apply sumQ_nonneg; intros; apply H; by right).
  apply elem_of_cons in Ha as [->|Ha]; [lra|].
  assert (f a <= sumQ (map f l)); [|lra].
  apply IH; [|done]. intros; apply H; by right.
Qed.

(** Two tables of the same dimensions that differ only in cells the loop
    writes are the same table after the loop. *)
Lemma foldl_setItem_agree (f : Var → string) (ks : list Var)
    (t u : QTableWidget) :
  rowCount t = rowCount u → columnCount t = columnCount u →
  (∀ c, items t !! c = items u !! c ∨
        ∃ k, k ∈ ks ∧ place t (fst k) (snd k) = Some c) →
  foldl (λ t k, setItem t (fst k) (snd k) (f k)) t ks =
  foldl (λ t k, setItem t (fst k) (snd k) (f k)) u ks.
Proof.
  revert t u. induction ks as [|a ks IH]; intros t u Hr Hc Hag.
  - cbn [foldl]. destruct t as [rt ct it], u as [ru cu iu]. cbn in Hr, Hc, Hag.
    subst ru cu. f_equal. apply map_eq. intros c.
    destruct (Hag c) as [H|(k & Hk & _)]; [done|inversion Hk].
  - cbn [foldl].
    destruct (dims_setItem t a.1 a.2 (f a)) as [Hrt Hct].
    destruct (dims_setItem u a.1 a.2 (f a)) as [Hru Hcu].
    apply IH; [congruence|congruence|].
    intros c. rewrite !items_setItem. rewrite (place_dims u t) by done.
    case_bool_decide as Heq; [by left|].
    destruct (Hag c) as [H|(k & Hk & Hp)]; [by left|].
    apply elem_of_cons in Hk as [->|Hk]; [done|].
    right. exists k. split; [done|]. by rewrite (place_dims _ t).
Qed.

(** The loop changes only cells one of its keys is placed on. *)
Lemma items_foldl_setItem_frame (f : Var → string) (ks : list Var)
    (t : QTableWidget) (c : nat * nat) :
  items (foldl (λ t k, setItem t (fst k) (snd k) (f k)) t ks) !! c = items t !! c ∨
  ∃ k, k ∈ ks ∧ place t (fst k) (snd k) = Some c.
Proof.
  revert t. induction ks as [|a ks IH]; intros t; [by left|].
  cbn [foldl]. destruct (dims_setItem t a.1 a.2 (f a)) as [Hr Hc].
  destruct (IH (setItem t a.1 a.2 (f a))) as [H|(k & Hk & Hp)].
  - rewrite H, items_setItem. case_bool_decide as Heq; [|by left].
    right. exists a. split; [by left|done].
  - right. exists k. split; [by right|].
    by rewrite <- (place_dims (setItem t a.1 a.2 (f a)) t).
Qed.

(** Writing the same result a second time changes nothing. *)
Lemma show_result_idem (n m : nat) (cost : Q) (X : Var → Q) (self : TransportApp) :
  show_result n m cost X (show_result n m cost X self) =
  show_result n m cost X self.
Proof.
  unfold show_result. cbn [cost_table offre_table demande_table result_table].
  f_equal.
  destruct (dims_foldl_setItem (λ k, fmt2 (X k)) (keys n m) (result_table self))
    as [Hr Hc].
  apply foldl_setItem_agree; [done|done|].
  intros c.
  destruct (items_foldl_setItem_frame (λ k, fmt2 (X k)) (keys n m)
              (result_table self) c) as [H|(k & Hk & Hp)]; [by left|].
  right. exists k. split; [done|]. by rewrite (place_dims _ (result_table self)).
Qed.


Section SolveFacts.

Variable float : string → option Q.
Variable optimize : Model → Optimized.

(** The only exception the reading of the three tables can raise: the
    [ValueError] of a cell of one of the three grids. *)
Lemma read_inputs_Raise (self : TransportApp) (e : exn) :
  read_inputs float self = Raise e →
  ∃ t i j text,
    (t = cost_table self ∨ t = offre_table self ∨ t = demande_table self) ∧
    item t i j = Some text ∧ text ≠ "" ∧ float text = None ∧
    e = ValueError text.
Proof.
  unfold read_inputs.
  set (n := rowCount (cost_table self)). set (m := columnCount (cost_table self)).
  destruct (_read_table float (cost_table self) n m) as [c|e1] eqn:Ec.
  2:{ intros H. injection H as ->.
      apply read_table_Raise in Ec as (i & j & text & _ & _ & ? & ? & ? & ?).
      exists (cost_table self), i, j, text. auto. }
  destruct (_read_table float (offre_table self) n 1) as [col|e1] eqn:Eo.
  2:{ intros H. injection H as ->.
      apply read_table_Raise in Eo as (i & j & text & _ & _ & ? & ? & ? & ?).
      exists (offre_table self), i, j, text. auto. }
  cbn [mbind result_bind].
  destruct (mapM (λ row, idx row 0%nat) col) as [o|e1] eqn:Em.
  2:{ exfalso. apply mapM_Raise in Em as (row & [i Hrow]%list_elem_of_lookup & Hidx).
      apply read_table_Ok in Eo as [Hlen Hrows].
      destruct (Hrows i) as (row' & Hrow' & Hone & _).
      { rewrite <- Hlen. by eapply lookup_lt_Some. }
      assert (row' = row) as -> by congruence.
      destruct row; [discriminate|discriminate]. }
  destruct (_read_table float (demande_table self) 1 m) as [line|e1] eqn:Ed.
  2:{ intros H. injection H as ->.
      apply read_table_Raise in Ed as (i & j & text & _ & _ & ? & ? & ? & ?).
      exists (demande_table self), i, j, text. auto. }
  cbn [mbind result_bind].
  apply read_table_Ok in Ed as [Hlen _].
  destruct line; [discriminate|]. discriminate.
Qed.

(** X4. The lists built by [solve_transport] are never indexed out of
    range: the exception shown in the critical box is always either the
    [ValueError] of a non-empty cell text that [float] rejects, found in one
    of the three input tables, or an exception raised by Gurobi (while the
    model was built, or in the optimiser). *)
Theorem critical_box_causes (self : TransportApp) (title : string) (e : exn) :
  CriticalBox title e ∈ snd (solve_transport float optimize self) →
  title = "Erreur" ∧ e ≠ IndexError ∧
  ((∃ t i j text,
      (t = cost_table self ∨ t = offre_table self ∨ t = demande_table self) ∧
      item t i j = Some text ∧ text ≠ "" ∧ float text = None ∧
      e = ValueError text) ∨
   (∃ m msg, lp float self = Ok m ∧
             (optimize m = GrbBuildRaise msg ∨ optimize m = GrbRaise msg) ∧
             e = GurobiError msg)).
Proof.
  intros Hin.
  destruct (read_inputs float self) as [[[couts offres] demandes]|e'] eqn:Hread.
  - pose proof (lp_Ok _ _ _ _ _ Hread) as Hlp.
    rewrite (solve_transport_run _ _ _ _ Hlp) in Hin.
    destruct (optimize _) as [msg|msg|status X] eqn:Hopt.
    + cbn [snd] in Hin. apply list_elem_of_singleton in Hin.
      injection Hin as -> ->.
      split; [done|]. split; [discriminate|]. right. eexists _, msg.
      split; [exact Hlp|]. split; [by left|done].
    + cbn [snd] in Hin. apply elem_of_cons in Hin as [Hin|Hin]; [discriminate|].
      apply list_elem_of_singleton in Hin. injection Hin as -> ->.
      split; [done|]. split; [discriminate|]. right. eexists _, msg.
      split; [exact Hlp|]. split; [by right|done].
    + destruct (status =? OPTIMAL)%Z; cbn [snd] in Hin.
      * apply list_elem_of_singleton in Hin. discriminate.
      * apply elem_of_cons in Hin as [Hin|Hin]; [discriminate|].
        apply list_elem_of_singleton in Hin. discriminate.
  - rewrite (solve_transport_read_error _ _ _ _ Hread) in Hin. cbn [snd] in Hin.
    apply list_elem_of_singleton in Hin. injection Hin as -> ->.
    apply read_inputs_Raise in Hread as (t & i & j & text & ? & ? & ? & ? & ->).
    split; [done|]. split; [discriminate|]. left. by exists t, i, j, text.
Qed.

(** The counts of the four traces a call can leave. *)
Lemma counts_critical (title : string) (e : exn) :
  optimizer_calls [CriticalBox title e] = 0%nat ∧
  boxes_shown [CriticalBox title e] = 1%nat.
Proof. split; reflexivity. Qed.

Lemma counts_optimize_critical (m : Model) (title : string) (e : exn) :
  optimizer_calls [Optimize m; CriticalBox title e] = 1%nat ∧
  boxes_shown [Optimize m; CriticalBox title e] = 1%nat.
Proof. split; reflexivity. Qed.

Lemma counts_optimize_warning (m : Model) (title text : string) :
  optimizer_calls [Optimize m; WarningBox title text] = 1%nat ∧
  boxes_shown [Optimize m; WarningBox title text] = 1%nat.
Proof. split; reflexivity. Qed.

Lemma counts_optimize (m : Model) :
  optimizer_calls [Optimize m] = 1%nat ∧ boxes_shown [Optimize m] = 0%nat.
Proof. split; reflexivity. Qed.

(** X5. A call of [solve_transport] calls the optimiser at most once:
    exactly once when the three tables can be read and gurobipy raises
    nothing while the model is built, and not at all otherwise, in which
    case all it does is show one critical box.  It shows at most one message
    box, and none exactly when the optimiser ends with status [OPTIMAL]. *)
Theorem one_optimizer_call (self : TransportApp) :
  let trace := snd (solve_transport float optimize self) in
  (optimizer_calls trace ≤ 1)%nat ∧ (boxes_shown trace ≤ 1)%nat ∧
  (optimizer_calls trace = 1%nat ↔
   ∃ m, lp float self = Ok m ∧ ∀ msg, optimize m ≠ GrbBuildRaise msg) ∧
  (optimizer_calls trace = 0%nat →
   ∃ e, solve_transport float optimize self = (self, [CriticalBox "Erreur" e])) ∧
  (boxes_shown trace = 0%nat ↔
   ∃ m X, lp float self = Ok m ∧ optimize m = GrbDone OPTIMAL X).
Proof.
  cbv zeta.
  destruct (read_inputs float self) as [[[couts offres] demandes]|e'] eqn:Hread.
  - pose proof (lp_Ok _ _ _ _ _ Hread) as Hlp.
    rewrite (solve_transport_run _ _ _ _ Hlp).
    set (m := model_of _ _ _ _ _) in *.
    assert (Hm : ∀ m', lp float self = Ok m' → m' = m) by (intros; congruence).
    destruct (optimize m) as [msg|msg|status X] eqn:Hopt;
      [|
       |destruct (status =? OPTIMAL)%Z eqn:Hst;
          [apply Z.eqb_eq in Hst as ->|apply Z.eqb_neq in Hst]];
      cbn [snd].
    + destruct (counts_critical "Erreur" (GurobiError msg)) as [-> ->].
      split; [lia|]. split; [lia|]. split; [|split].
      * split; [discriminate|].
        intros (m' & ->%Hm & Hno). by destruct (Hno msg).
      * intros _. by eexists.
      * split; [discriminate|]. intros (m' & X & ->%Hm & HX). congruence.
    + destruct (counts_optimize_critical m "Erreur" (GurobiError msg)) as [-> ->].
      split; [lia|]. split; [lia|]. split; [|split].
      * split; [|done]. intros _. exists m. split; [done|]. congruence.
      * discriminate.
      * split; [discriminate|]. intros (m' & X & ->%Hm & HX). congruence.
    + destruct (counts_optimize m) as [-> ->].
      split; [lia|]. split; [lia|]. split; [|split].
      * split; [|done]. intros _. exists m. split; [done|]. congruence.
      * discriminate.
      * split; [|done]. intros _. by exists m, X.
    + destruct (counts_optimize_warning m "Résultat"
                  "Aucune solution optimale trouvée.") as [-> ->].
      split; [lia|]. split; [lia|]. split; [|split].
      * split; [|done]. intros _. exists m. split; [done|]. congruence.
      * discriminate.
      * split; [discriminate|]. intros (m' & X' & ->%Hm & HX). congruence.
  - rewrite (solve_transport_read_error _ _ _ _ Hread).
    pose proof (lp_Raise _ _ _ Hread) as Hlp. cbn [snd].
    destruct (counts_critical "Erreur" e') as [-> ->].
    split; [lia|]. split; [lia|]. split; [|split].
    + split; [discriminate|]. intros (m & Hm & _). congruence.
    + intros _. by eexists.
    + split; [discriminate|]. intros (m & X & Hm & _). congruence.
Qed.

(** The cells of the grid in the result table after a successful call. *)
Lemma item_solved_result (self : TransportApp) (cost : Q) (X : Var → Q)
    (i j : nat) :
  returns float optimize self cost X →
  (i < rowCount (cost_table self))%nat →
  (j < columnCount (cost_table self))%nat →
  in_range (result_table self) i j = true →
  item (result_table (fst (solve_transport float optimize self))) i j =
    Some (fmt2 (X (i, j))).
Proof.
  intros (m & _ & _ & _ & ->) Hi Hj Hin. cbn [fst]. by apply item_show_result.
Qed.

(** X6. [solve_transport] never changes the dimensions of the result table.
    When it succeeds, every cell of the result table that lies in the grid
    of the cost table shows the two-decimal rendering of its allocation.
    When moreover the result table is at least as wide as the cost table
    (as in every window [update_tables] has sized), these are the only
    cells it overwrites and every other cell keeps its item; in a narrower
    table [setItem] lets a column past the end land in a later row. *)
Theorem result_table_written (self : TransportApp) (cost : Q) (X : Var → Q)
    (i j : nat) :
  returns float optimize self cost X →
  rowCount (result_table (fst (solve_transport float optimize self))) =
    rowCount (result_table self) ∧
  columnCount (result_table (fst (solve_transport float optimize self))) =
    columnCount (result_table self) ∧
  ((i < rowCount (cost_table self))%nat →
   (j < columnCount (cost_table self))%nat →
   in_range (result_table self) i j = true →
   item (result_table (fst (solve_transport float optimize self))) i j =
     Some (fmt2 (X (i, j)))) ∧
  ((columnCount (cost_table self) ≤ columnCount (result_table self))%nat →
   item (result_table (fst (solve_transport float optimize self))) i j =
     if in_range (result_table self) i j
        && bool_decide ((i < rowCount (cost_table self))%nat ∧
                        (j < columnCount (cost_table self))%nat)
     then Some (fmt2 (X (i, j)))
     else item (result_table self) i j).
Proof.
  intros Hret.
  assert (Hgrid : (i < rowCount (cost_table self))%nat →
            (j < columnCount (cost_table self))%nat →
            in_range (result_table self) i j = true →
            item (result_table (fst (solve_transport float optimize self))) i j =
              Some (fmt2 (X (i, j)))).
  { destruct Hret as (m & _ & _ & _ & ->). cbn [fst].
    intros Hi Hj Hin. by apply item_show_result. }
  revert Hgrid.
  destruct Hret as (m & _ & _ & _ & ->). cbn [fst show_result result_table].
  intros Hgrid.
  destruct (dims_foldl_setItem (λ k, fmt2 (X k))
              (keys (rowCount (cost_table self)) (columnCount (cost_table self)))
              (result_table self)) as [Hr Hc].
  split; [done|]. split; [done|]. split; [done|].
  intros Hwide.
  destruct (in_range (result_table self) i j) eqn:Hin; cbn [andb].
  - case_bool_decide as Hg; [by apply Hgrid; destruct Hg|].
    apply item_foldl_setItem_miss. intros [a b] [Ha Hb]%elem_of_keys Hp.
    cbn [fst snd] in Hp. apply place_narrow in Hp; [|lia].
    injection Hp as -> ->. by apply Hg.
  - unfold item, in_range. rewrite Hr, Hc.
    unfold in_range in Hin. by rewrite Hin.
Qed.


(** X12. Clicking twice changes nothing more: a second call of
    [solve_transport], on the state the first call left and with the same
    answer of the optimiser, ends in that same state with the same trace. *)
Theorem second_click_same_state (self : TransportApp) :
  solve_transport float optimize (fst (solve_transport float optimize self)) =
  solve_transport float optimize self.
Proof.
  pose proof (solve_transport_inputs float optimize self) as Hsame.
  cbv zeta in Hsame. fold (same_inputs (fst (solve_transport float optimize self)) self)
    in Hsame.
  destruct (lp float self) as [m|e] eqn:Hlp.
  - pose proof (same_inputs_lp float _ _ Hsame) as Hlp'. rewrite Hlp in Hlp'.
    rewrite (solve_transport_run _ _ _ _ Hlp').
    destruct Hsame as (-> & _).
    rewrite (solve_transport_run _ _ _ _ Hlp).
    destruct (optimize m) as [msg|msg|status X]; [done|done|].
    destruct (status =? OPTIMAL)%Z; [|done].
    cbn [fst]. by rewrite show_result_idem.
  - destruct (read_inputs float self) as [[[c o] d]|e'] eqn:Hin.
    + rewrite (lp_Ok _ _ _ _ _ Hin) in Hlp. discriminate.
    + pose proof (same_inputs_read float _ _ Hsame) as Hin'. rewrite Hin in Hin'.
      rewrite (solve_transport_read_error _ _ _ _ Hin').
      by rewrite (solve_transport_read_error _ _ _ _ Hin).
Qed.

End SolveFacts.

(** ** What the linear program implies for a call *)

Section ProgramBounds.

Variable float : string → option Q.
Variable optimize : Model → Optimized.

(** X8. When total demand exceeds total supply no call can succeed: a sound
    optimiser never answers [OPTIMAL], so the result widgets are not
    written. *)
Theorem short_supply_never_succeeds (self : TransportApp)
    couts offres demandes :
  read_inputs float self = Ok (couts, offres, demandes) →
  sumQ offres < sumQ demandes →
  sound_on float optimize self →
  ¬ succeeds float optimize self.
Proof.
  intros Hin Hlt Hsound (cost & X & Hret)%succeeds_returns.
  destruct (returns_optimal _ _ _ _ _ Hsound Hret)
    as (c & o & d & Hin' & [Hfeas _] & _).
  rewrite Hin in Hin'. injection Hin' as <- <- <-.
  apply feasible_model_of in Hfeas as (_ & Hrow & Hcol).
  destruct (read_inputs_Ok _ _ _ _ _ Hin) as [(Ho & Hd & _) _].
  set (n := rowCount (cost_table self)) in *.
  set (m := columnCount (cost_table self)) in *.
  assert (Hswap : sumQ (map (rowsum m X) (seq 0 n)) ==
                  sumQ (map (colsum n X) (seq 0 m))).
  { unfold rowsum, colsum. apply (sumQ_swap (λ i j, X (i, j))). }
  assert (HR : sumQ (map (rowsum m X) (seq 0 n)) <= sumQ (map (at1 offres) (seq 0 n))).
  { apply sumQ_map_le. intros i Hi%elem_of_seq. apply Hrow. lia. }
  assert (HC : sumQ (map (at1 demandes) (seq 0 m)) <= sumQ (map (colsum n X) (seq 0 m))).
  { apply sumQ_map_le. intros j Hj%elem_of_seq. apply Hcol. lia. }
  rewrite (sumQ_at1 offres), (sumQ_at1 demandes), Ho, Hd in Hlt. lra.
Qed.

(** X10. No entry of a returned allocation exceeds the supply of its
    source: the shipments are bounded, [0 <= x[i,j] <= offres[i]]. *)
Theorem allocation_at_most_supply (self : TransportApp) couts offres demandes
    (cost : Q) (X : Var → Q) (i j : nat) :
  read_inputs float self = Ok (couts, offres, demandes) →
  sound_on float optimize self →
  returns float optimize self cost X →
  (i < rowCount (cost_table self))%nat →
  (j < columnCount (cost_table self))%nat →
  0 <= X (i, j) ∧ X (i, j) <= at1 offres i.
Proof.
  intros Hin Hsound Hret Hi Hj.
  destruct (returns_optimal _ _ _ _ _ Hsound Hret)
    as (c & o & d & Hin' & [Hfeas _] & _).
  rewrite Hin in Hin'. injection Hin' as <- <- <-.
  apply feasible_model_of in Hfeas as (Hpos & Hrow & _).
  split; [by apply Hpos|]. eapply Qle_trans; [|by apply Hrow].
  unfold rowsum. apply (sumQ_term_le (λ j, X (i, j))).
  - intros b Hb%elem_of_seq. apply Hpos; [done|lia].
  - apply elem_of_seq. lia.
Qed.

(** X11. A negative supply makes every call fail: under a sound optimiser
    the call never succeeds. *)
Theorem negative_supply_never_succeeds (self : TransportApp)
    couts offres demandes (i : nat) :
  read_inputs float self = Ok (couts, offres, demandes) →
  (i < rowCount (cost_table self))%nat →
  at1 offres i < 0 →
  sound_on float optimize self →
  ¬ succeeds float optimize self.
Proof.
  intros Hin Hi Hneg Hsound (cost & X & Hret)%succeeds_returns.
  destruct (returns_optimal _ _ _ _ _ Hsound Hret)
    as (c & o & d & Hin' & [Hfeas _] & _).
  rewrite Hin in Hin'. injection Hin' as <- <- <-.
  apply feasible_model_of in Hfeas as (Hpos & Hrow & _).
  specialize (Hrow i Hi).
  assert (0 <= rowsum (columnCount (cost_table self)) X i); [|lra].
  unfold rowsum. apply sumQ_nonneg. intros j Hj%elem_of_seq.
  apply Hpos; [done|lia].
Qed.

Lemma total_cost_nonneg (n m : nat) (cost : nat → nat → Q) (X : Var → Q) :
  (∀ i j, (i < n)%nat → (j < m)%nat → 0 <= cost i j) →
  (∀ i j, (i < n)%nat → (j < m)%nat → 0 <= X (i, j)) →
  0 <= total_cost n m cost X.
Proof.
  intros Hc Hx. unfold total_cost.
  apply sumQ_nonneg. intros i Hi%elem_of_seq.
  apply sumQ_nonneg. intros j Hj%elem_of_seq.
  apply Qmult_le_0_compat; [apply Hc|apply Hx]; lia.
Qed.

(** X9. With non-negative costs the total cost of a successful call is
    non-negative. *)
Theorem nonnegative_costs_nonnegative_total (self : TransportApp)
    couts offres demandes (cost : Q) (X : Var → Q) :
  read_inputs float self = Ok (couts, offres, demandes) →
  (∀ i j, (i < rowCount (cost_table self))%nat →
          (j < columnCount (cost_table self))%nat → 0 <= at2 couts i j) →
  sound_on float optimize self →
  returns float optimize self cost X →
  0 <= cost.
Proof.
  intros Hin Hc Hsound Hret.
  destruct (returns_optimal _ _ _ _ _ Hsound Hret)
    as (c & o & d & Hin' & [Hfeas _] & ->).
  rewrite Hin in Hin'. injection Hin' as <- <- <-.
  apply feasible_model_of in Hfeas as (Hpos & _).
  rewrite objVal_model_of. by apply total_cost_nonneg.
Qed.

(** X13. When nothing is demanded (every demand is blank, zero or negative)
    and costs and supplies are non-negative, a successful call costs nothing
    and the label reads [Coût total minimal : 0.00]. *)
Theorem no_demand_costs_nothing (self : TransportApp)
    couts offres demandes (cost : Q) (X : Var → Q) :
  read_inputs float self = Ok (couts, offres, demandes) →
  (∀ i j, (i < rowCount (cost_table self))%nat →
          (j < columnCount (cost_table self))%nat → 0 <= at2 couts i j) →
  (∀ i, (i < rowCount (cost_table self))%nat → 0 <= at1 offres i) →
  (∀ j, (j < columnCount (cost_table self))%nat → at1 demandes j <= 0) →
  sound_on float optimize self →
  returns float optimize self cost X →
  cost == 0 ∧
  result_label (fst (solve_transport float optimize self)) =
    "Coût total minimal : 0.00".
Proof.
  intros Hin Hc Ho Hd Hsound Hret.
  assert (Hzero : cost == 0).
  { destruct (returns_optimal _ _ _ _ _ Hsound Hret)
      as (c & o & d & Hin' & [Hfeas Hmin] & ->).
    rewrite Hin in Hin'. injection Hin' as <- <- <-.
    set (n := rowCount (cost_table self)) in *.
    set (m := columnCount (cost_table self)) in *.
    assert (0 <= objVal (model_of n m (at2 couts) (at1 offres) (at1 demandes)) X).
    { apply feasible_model_of in Hfeas as (Hpos & _).
      rewrite objVal_model_of. by apply total_cost_nonneg. }
    assert (H0 : feasible (model_of n m (at2 couts) (at1 offres) (at1 demandes))
                          (λ _, 0)).
    { apply feasible_model_of. repeat split.
      - intros. apply Qle_refl.
      - intros i Hi. unfold rowsum. rewrite sumQ_map_zero; [by apply Ho|done].
      - intros j Hj. unfold colsum. rewrite sumQ_map_zero; [by apply Hd|done]. }
    apply Hmin in H0. rewrite (objVal_model_of _ _ _ _ _ (λ _, 0)) in H0.
    assert (total_cost n m (at2 couts) (λ _, 0) == 0); [|lra].
    unfold total_cost. apply sumQ_map_zero. intros i _.
    apply sumQ_map_zero. intros j _. lra. }
  split; [done|]. destruct Hret as (m & _ & _ & _ & ->).
  cbn [fst result_label show_result]. by rewrite (fmt2_Qeq _ 0 Hzero).
Qed.

End ProgramBounds.

(** ** Runs for the facts above *)

Lemma critical_box_causes_witness :
  "Erreur" = "Erreur" ∧ ValueError "abc" ≠ IndexError ∧
  ((∃ t i j text,
      (t = cost_table app_text ∨ t = offre_table app_text ∨
       t = demande_table app_text) ∧
      item t i j = Some text ∧ text ≠ "" ∧ dec_float text = None ∧
      ValueError "abc" = ValueError text) ∨
   (∃ m msg, lp dec_float app_text = Ok m ∧
             (answer OPTIMAL 1 m = GrbBuildRaise msg ∨
              answer OPTIMAL 1 m = GrbRaise msg) ∧
             ValueError "abc" = GurobiError msg)).
Proof.
  apply (critical_box_causes dec_float (answer OPTIMAL 1) app_text
           "Erreur" (ValueError "abc")).
  vm_compute. by left.
Defined.

Lemma result_table_written_witness :
  rowCount (result_table (fst (solve_transport dec_float (answer OPTIMAL 5) app_unit))) =
    rowCount (result_table app_unit) ∧
  columnCount (result_table (fst (solve_transport dec_float (answer OPTIMAL 5) app_unit))) =
    columnCount (result_table app_unit) ∧
  ((0 < rowCount (cost_table app_unit))%nat →
   (0 < columnCount (cost_table app_unit))%nat →
   in_range (result_table app_unit) 0 0 = true →
   item (result_table (fst (solve_transport dec_float (answer OPTIMAL 5) app_unit))) 0 0 =
     Some (fmt2 ((λ _ : Var, 5) (0%nat, 0%nat)))) ∧
  ((columnCount (cost_table app_unit) ≤ columnCount (result_table app_unit))%nat →
   item (result_table (fst (solve_transport dec_float (answer OPTIMAL 5) app_unit))) 0 0 =
     if in_range (result_table app_unit) 0 0
        && bool_decide ((0 < rowCount (cost_table app_unit))%nat ∧
                        (0 < columnCount (cost_table app_unit))%nat)
     then Some (fmt2 ((λ _ : Var, 5) (0%nat, 0%nat)))
     else item (result_table app_unit) 0 0).
Proof.
  apply (result_table_written dec_float (answer OPTIMAL 5) app_unit 5 (λ _, 5) 0 0).
  apply app_unit_returns.
Defined.

(** In a result table narrower than the cost table, the second column of
    the first row lands in the second row: [setItem] tests the place in the
    vector of items only. *)
Example narrow_result_table_wraps :
  place (result_table app_narrow) 0 1 = Some (1%nat, 0%nat) ∧
  item (result_table (fst (solve_transport dec_float ship_2_3 app_narrow))) 0 0 =
    Some "2.00" ∧
  item (result_table (fst (solve_transport dec_float ship_2_3 app_narrow))) 1 0 =
    Some "3.00".
Proof. split; [reflexivity|]. split; vm_compute; reflexivity. Qed.


Lemma app_infeasible_sound : sound_on dec_float one_cell_opt app_infeasible.
Proof. small_grid_sound app_infeasible_inputs. Qed.

Lemma short_supply_never_succeeds_witness :
  ¬ succeeds dec_float one_cell_opt app_infeasible.
Proof.
  apply (short_supply_never_succeeds dec_float one_cell_opt app_infeasible
           [[1]] [1] [2]).
  - reflexivity.
  - reflexivity.
  - apply app_infeasible_sound.
Defined.

Lemma allocation_at_most_supply_witness :
  0 <= (λ _ : Var, 5) (0%nat, 0%nat) ∧ (λ _ : Var, 5) (0%nat, 0%nat) <= at1 [5] 0.
Proof.
  apply (allocation_at_most_supply dec_float (answer OPTIMAL 5) app_unit
           [[1]] [5] [5] 5 (λ _, 5) 0 0).
  - reflexivity.
  - apply app_unit_sound.
  - apply app_unit_returns.
  - cbn. lia.
  - cbn. lia.
Defined.

Lemma app_negsupply_inputs :
  read_inputs dec_float app_negsupply = Ok ([[1]], [-1], [0]).
Proof. reflexivity. Qed.

Lemma app_negsupply_sound : sound_on dec_float one_cell_opt app_negsupply.
Proof. small_grid_sound app_negsupply_inputs. Qed.

Lemma negative_supply_never_succeeds_witness :
  ¬ succeeds dec_float one_cell_opt app_negsupply.
Proof.
  apply (negative_supply_never_succeeds dec_float one_cell_opt app_negsupply
           [[1]] [-1] [0] 0).
  - reflexivity.
  - cbn. lia.
  - reflexivity.
  - apply app_negsupply_sound.
Defined.

Lemma nonnegative_costs_nonnegative_total_witness : 0 <= 5.
Proof.
  apply (nonnegative_costs_nonnegative_total dec_float (answer OPTIMAL 5) app_unit
           [[1]] [5] [5] 5 (λ _, 5)).
  - reflexivity.
  - intros i j Hi Hj. cbn in Hi, Hj. destruct i, j; try lia. cbn. lra.
  - apply app_unit_sound.
  - apply app_unit_returns.
Defined.

Lemma app_nodemand_inputs :
  read_inputs dec_float app_nodemand = Ok ([[1]], [5], [0]).
Proof. reflexivity. Qed.

Lemma app_nodemand_sound : sound_on dec_float (answer OPTIMAL 0) app_nodemand.
Proof. small_grid_sound app_nodemand_inputs. Qed.

Lemma app_nodemand_returns :
  returns dec_float (answer OPTIMAL 0) app_nodemand 0 (λ _, 0).
Proof.
  eexists. split; [apply (lp_Ok _ _ _ _ _ app_nodemand_inputs)|].
  split; [reflexivity|]. split; reflexivity.
Qed.

Lemma no_demand_costs_nothing_witness :
  0 == 0 ∧
  result_label (fst (solve_transport dec_float (answer OPTIMAL 0) app_nodemand)) =
    "Coût total minimal : 0.00".
Proof.
  apply (no_demand_costs_nothing dec_float (answer OPTIMAL 0) app_nodemand
           [[1]] [5] [0] 0 (λ _, 0)).
  - reflexivity.
  - intros i j Hi Hj. cbn in Hi, Hj. destruct i, j; try lia. cbn. lra.
  - intros i Hi. cbn in Hi. destruct i; try lia. cbn. lra.
  - intros j Hj. cbn in Hj. destruct j; try lia. cbn. lra.
  - apply app_nodemand_sound.
  - apply app_nodemand_returns.
Defined.

(** ** Resizing the tables *)

Lemma table_wf_resize (t : QTableWidget) (rows cols : nat) :
  table_wf (setColumnCount (setRowCount t rows) cols).
Proof.
  intros i j text H. cbn in H.
  apply map_lookup_filter_Some in H as [H Hj].
  apply map_lookup_filter_Some in H as [_ Hi]. cbn in Hi, Hj.
  unfold in_range. cbn. apply andb_true_iff. split; by apply Nat.ltb_lt.
Qed.

Lemma table_wf_setItem (t : QTableWidget) (i j : nat) (text : string) :
  table_wf t → table_wf (setItem t i j text).
Proof.
  intros Hwf i' j' text' H. rewrite in_range_setItem.
  rewrite items_setItem in H. case_bool_decide as Heq.
  - by apply place_Some in Heq as [? _].
  - by eapply Hwf.
Qed.

Lemma table_wf_foldl_setItem (f : Var → string) (ks : list Var) (t : QTableWidget) :
  table_wf t → table_wf (foldl (λ t k, setItem t (fst k) (snd k) (f k)) t ks).
Proof.
  revert t. induction ks as [|k ks IH]; intros t Hwf; [done|].
  cbn [foldl]. by apply IH, table_wf_setItem.
Qed.

(** The cells of a resized table. *)
Lemma item_resize (t : QTableWidget) (rows cols i j : nat) :
  table_wf t →
  item (setColumnCount (setRowCount t rows) cols) i j =
  if (i <? rows)%nat && (j <? cols)%nat then item t i j else None.
Proof.
  intros Hwf. unfold item at 1.
  change (in_range (setColumnCount (setRowCount t rows) cols) i j)
    with ((i <? rows)%nat && (j <? cols)%nat).
  destruct ((i <? rows)%nat && (j <? cols)%nat) eqn:Hnew; [|done].
  apply andb_true_iff in Hnew as [Hi%Nat.ltb_lt Hj%Nat.ltb_lt].
  change (items (setColumnCount (setRowCount t rows) cols))
    with (filter (λ kv : nat * nat * string, (kv.1.2 < cols)%nat)
            (filter (λ kv : nat * nat * string, (kv.1.1 < rows)%nat) (items t))).
  destruct (items t !! (i, j)) as [text|] eqn:Hit.
  - unfold item. rewrite (Hwf _ _ _ Hit), Hit.
    apply map_lookup_filter_Some. split; [|done].
    apply map_lookup_filter_Some. by split.
  - assert (item t i j = None) as ->.
    { unfold item. rewrite Hit. by destruct (in_range t i j). }
    apply map_lookup_filter_None. left.
    apply map_lookup_filter_None. by left.
Qed.

Lemma update_tables_dims (self : Window) :
  dims_ok (update_tables self) ∧ tables_wf (update_tables self) ∧
  n_sources_spin (update_tables self) = n_sources_spin self ∧
  n_dest_spin (update_tables self) = n_dest_spin self.
Proof.
  split; [|split; [|done]].
  - repeat split.
  - repeat split; apply table_wf_resize.
Qed.

(** X14. Whatever state the tables are in, [update_tables] gives them the
    dimensions the spin boxes ask for: costs and results [n_sources] by
    [n_dest], supplies [n_sources] by 1, demands 1 by [n_dest].  No item is
    left outside its table, the shapes of the supply and demand tables agree
    with the cost table, and every supply, demand and result cell that
    [solve_transport] will use lies inside its table. *)
Theorem update_tables_dimensions (self : Window) :
  dims_ok (update_tables self) ∧ tables_wf (update_tables self) ∧
  ¬ shape_mismatch (widgets (update_tables self)) ∧
  (∀ i j, (i < rowCount (cost_table (widgets (update_tables self))))%nat →
          (j < columnCount (cost_table (widgets (update_tables self))))%nat →
          in_range (offre_table (widgets (update_tables self))) i 0 = true ∧
          in_range (demande_table (widgets (update_tables self))) 0 j = true ∧
          in_range (result_table (widgets (update_tables self))) i j = true) ∧
  n_sources_spin (update_tables self) = n_sources_spin self ∧
  n_dest_spin (update_tables self) = n_dest_spin self.
Proof.
  split; [|split; [|split; [|split]]].
  - repeat split.
  - repeat split; apply table_wf_resize.
  - intros [H|H]; by apply H.
  - intros i j Hi Hj. cbn in Hi, Hj.
    repeat split; apply andb_true_iff; split; apply Nat.ltb_lt; cbn; lia.
  - done.
Qed.

(** X15. [update_tables] keeps what was typed: in each of the four tables a
    cell that is still inside the new dimensions holds the item it held
    before, and a cell outside them holds none (so an entry dropped by
    shrinking does not come back when the table grows again).  The result
    label is not touched. *)
Theorem update_tables_keeps_entries (self : Window) (i j : nat) :
  tables_wf self →
  let n := spin_value (n_sources_spin self) in
  let m := spin_value (n_dest_spin self) in
  item (cost_table (widgets (update_tables self))) i j =
    (if (i <? n)%nat && (j <? m)%nat
     then item (cost_table (widgets self)) i j else None) ∧
  item (offre_table (widgets (update_tables self))) i j =
    (if (i <? n)%nat && (j <? 1)%nat
     then item (offre_table (widgets self)) i j else None) ∧
  item (demande_table (widgets (update_tables self))) i j =
    (if (i <? 1)%nat && (j <? m)%nat
     then item (demande_table (widgets self)) i j else None) ∧
  item (result_table (widgets (update_tables self))) i j =
    (if (i <? n)%nat && (j <? m)%nat
     then item (result_table (widgets self)) i j else None) ∧
  result_label (widgets (update_tables self)) = result_label (widgets self).
Proof.
  intros (Hc & Ho & Hd & Hr) n m. cbn.
  by rewrite !item_resize.
Qed.

(** ** The group boxes of the layout *)

Lemma replace_group_box_live (title : string) (layout : list LayoutItem) :
  first_group_box title layout = Some false →
  ∃ layout', replace_group_box title layout = Some layout' ∧
    process_events layout' = process_events layout ∧
    ∀ t, first_group_box t layout' = first_group_box t layout.
Proof.
  induction layout as [|it layout IH]; [discriminate|].
  destruct it as [text| |t doomed|text|]; cbn [first_group_box replace_group_box].
  1,2,4,5: intros H; destruct (IH H) as (l' & -> & Hp & Hf);
    eexists; (split; [reflexivity|]); split;
    [ unfold process_events in *; rewrite !filter_cons_True by done; by rewrite Hp
    | intros t'; cbn [first_group_box]; apply Hf ].
  destruct (String.eqb t title) eqn:Heq.
  - intros H. injection H as ->. apply String.eqb_eq in Heq as ->.
    eexists. split; [reflexivity|]. split.
    + unfold process_events. rewrite !filter_cons_True by done.
      by rewrite filter_cons_False by done.
    + intros t'. cbn [first_group_box]. by destruct (String.eqb title t').
  - intros H. destruct (IH H) as (l' & -> & Hp & Hf).
    eexists. split; [reflexivity|]. split.
    + unfold process_events in *. destruct doomed.
      * rewrite !filter_cons_False by done. done.
      * rewrite !filter_cons_True by done. by rewrite Hp.
    + intros t'. cbn [first_group_box]. by rewrite Hf.
Qed.

Lemma replace_group_box_None (title : string) (layout : list LayoutItem) :
  first_group_box title layout = None ↔ replace_group_box title layout = None.
Proof.
  induction layout as [|it layout IH]; [done|].
  destruct it as [text| |t doomed|text|]; cbn [first_group_box replace_group_box].
  1,2,4,5: rewrite IH; by destruct (replace_group_box title layout).
  destruct (String.eqb t title); [done|].
  rewrite IH. by destruct (replace_group_box title layout).
Qed.

Lemma first_group_box_process_events (title : string) (layout : list LayoutItem) :
  first_group_box title layout = Some false →
  first_group_box title (process_events layout) = Some false.
Proof.
  induction layout as [|it layout IH]; [done|].
  unfold process_events in *.
  destruct it as [text| |t doomed|text|]; cbn [first_group_box].
  1,2,4,5: rewrite filter_cons_True by done; cbn [first_group_box]; apply IH.
  destruct (String.eqb t title) eqn:Heq.
  - intros H. injection H as ->. rewrite filter_cons_True by done.
    cbn [first_group_box]. by rewrite Heq.
  - intros H. destruct doomed.
    + rewrite filter_cons_False by done. by apply IH.
    + rewrite filter_cons_True by done. cbn [first_group_box]. rewrite Heq.
      by apply IH.
Qed.

(** X16. [_setup_table] replaces a group box in place.  When the first group
    box with the title is not already doomed, the layout that the event loop
    leaves (the doomed boxes deleted) is the same as before the call; when
    no group box has the title, the new one is appended at the end. *)
Theorem setup_table_replaces_in_place (layout : list LayoutItem)
    (table : QTableWidget) (rows cols : nat)
    (title row_prefix col_prefix : string) (editable' : bool) :
  let layout' :=
    snd (_setup_table layout table rows cols title row_prefix col_prefix editable') in
  (first_group_box title layout = Some false →
     process_events layout' = process_events layout ∧
     ∀ t, first_group_box t layout' = first_group_box t layout) ∧
  (first_group_box title layout = None →
     layout' = layout ++ [ItemGroupBox title false]).
Proof.
  cbn. unfold place_group_box. split.
  - intros H. destruct (replace_group_box_live _ _ H) as (l' & -> & ? & ?). done.
  - intros H. apply replace_group_box_None in H. by rewrite H.
Qed.

Lemma update_tables_layout (self : Window) :
  layout_settled (main_layout self) →
  layout_settled (main_layout (update_tables self)) ∧
  process_events (main_layout (update_tables self)) =
    process_events (main_layout self).
Proof.
  intros Hs. unfold update_tables, _setup_table. cbn [main_layout].
  assert (H1 := Hs "Coûts" ltac:(set_solver)).
  assert (H2 := Hs "Offres des sources" ltac:(set_solver)).
  assert (H3 := Hs "Demandes des destinations" ltac:(set_solver)).
  assert (H4 := Hs "Solution Optimale" ltac:(set_solver)).
  unfold place_group_box.
  destruct (replace_group_box_live _ _ H1) as (l1 & -> & Hp1 & Hf1).
  rewrite <- Hf1 in H2.
  destruct (replace_group_box_live _ _ H2) as (l2 & -> & Hp2 & Hf2).
  rewrite <- Hf1, <- Hf2 in H3.
  destruct (replace_group_box_live _ _ H3) as (l3 & -> & Hp3 & Hf3).
  rewrite <- Hf1, <- Hf2, <- Hf3 in H4.
  destruct (replace_group_box_live _ _ H4) as (l4 & -> & Hp4 & Hf4).
  split; [|congruence].
  intros t Ht. rewrite Hf4, Hf3, Hf2, Hf1. by apply Hs.
Qed.

(** ** Headers *)

(** X17. The header labels [_setup_table] gives a table are pairwise
    distinct and as many as the table has rows or columns; after
    [update_tables] this holds for the four tables, of which only the result
    table cannot be edited. *)
Theorem update_tables_headers (self : Window) :
  let self' := update_tables self in
  (∀ prefix n, length (header_labels prefix n) = n ∧
               NoDup (header_labels prefix n)) ∧
  horizontalHeaderLabels (cost_setup self') =
    header_labels "D" (columnCount (cost_table (widgets self'))) ∧
  verticalHeaderLabels (cost_setup self') =
    header_labels "S" (rowCount (cost_table (widgets self'))) ∧
  horizontalHeaderLabels (offre_setup self') = ["1"] ∧
  verticalHeaderLabels (offre_setup self') =
    header_labels "S" (rowCount (offre_table (widgets self'))) ∧
  horizontalHeaderLabels (demande_setup self') =
    header_labels "D" (columnCount (demande_table (widgets self'))) ∧
  verticalHeaderLabels (demande_setup self') = ["1"] ∧
  horizontalHeaderLabels (result_setup self') =
    horizontalHeaderLabels (cost_setup self') ∧
  verticalHeaderLabels (result_setup self') =
    verticalHeaderLabels (cost_setup self') ∧
  editable (cost_setup self') = true ∧ editable (offre_setup self') = true ∧
  editable (demande_setup self') = true ∧ editable (result_setup self') = false.
Proof.
  cbv zeta. split; [|by repeat split].
  intros prefix n. unfold header_labels. split.
  - by rewrite length_map, length_seq.
  - apply NoDup_fmap_2_strong; [|apply NoDup_seq].
    intros j1 j2 _ _ H. apply (inj (String.app prefix)) in H.
    apply (inj pretty) in H. lia.
Qed.

(** ** The states the user can reach *)

Lemma setValue_spin_ok (s : QSpinBox) (v : nat) :
  spin_ok s → spin_ok (setValue s v).
Proof.
  intros (Hlo & Hhi & _ & _). unfold spin_ok, setValue, clamp. cbn.
  rewrite Hlo, Hhi. repeat split; lia.
Qed.

Lemma process_events_idem (layout : list LayoutItem) :
  process_events (process_events layout) = process_events layout.
Proof.
  unfold process_events. induction layout as [|it layout IH]; [done|].
  destruct (decide (is_doomed it = false)) as [H|H].
  - rewrite !filter_cons_True by done. by rewrite IH.
  - by rewrite filter_cons_False by done.
Qed.

Lemma has_dims_setItem (t : QTableWidget) (i j : nat) (text : string)
    (rows cols : nat) :
  has_dims t rows cols → has_dims (setItem t i j text) rows cols.
Proof.
  unfold has_dims. by destruct (dims_setItem t i j text) as [-> ->].
Qed.

Section Reachable.

Variable float : string → option Q.

(** A call leaves the result table with its dimensions and without items
    outside them, whatever its outcome. *)
Lemma solve_transport_result_table optimize (self : TransportApp) :
  rowCount (result_table (fst (solve_transport float optimize self))) =
    rowCount (result_table self) ∧
  columnCount (result_table (fst (solve_transport float optimize self))) =
    columnCount (result_table self) ∧
  (table_wf (result_table self) →
   table_wf (result_table (fst (solve_transport float optimize self)))).
Proof.
  destruct (lp float self) as [m|e] eqn:Hlp.
  - rewrite (solve_transport_run _ _ _ _ Hlp).
    destruct (optimize m) as [msg|msg|status X]; [done|done|].
    destruct (status =? OPTIMAL)%Z; [|done].
    cbn [fst show_result result_table].
    destruct (dims_foldl_setItem (λ k, fmt2 (X k))
                (keys (rowCount (cost_table self)) (columnCount (cost_table self)))
                (result_table self)) as [-> ->].
    split; [done|]. split; [done|]. apply table_wf_foldl_setItem.
  - destruct (read_inputs float self) as [[[c o] d]|e'] eqn:Hin.
    + rewrite (lp_Ok _ _ _ _ _ Hin) in Hlp. discriminate.
    + by rewrite (solve_transport_read_error _ _ _ _ Hin).
Qed.

Lemma init_window_ok : window_ok init_window.
Proof.
  unfold window_ok. split; [|split; [|split; [|split; [|split]]]].
  - vm_compute. repeat split; lia.
  - vm_compute. repeat split; lia.
  - vm_compute. by repeat split.
  - unfold init_window. cbv zeta. cbn [widgets].
    apply update_tables_dims.
  - intros title Ht. unfold table_titles in Ht.
    repeat (apply elem_of_cons in Ht as [->|Ht]; [by vm_compute|]).
    inversion Ht.
  - by vm_compute.
Qed.

Lemma update_tables_ok (self : Window) :
  spin_ok (n_sources_spin self) → spin_ok (n_dest_spin self) →
  layout_settled (main_layout self) →
  process_events (main_layout self) = main_layout init_window →
  window_ok (update_tables self).
Proof.
  intros Hs Hd Hl Hp.
  destruct (update_tables_dims self) as (Hdims & Hwf & Hsn & Hdn).
  destruct (update_tables_layout self Hl) as [Hl' Hp'].
  unfold window_ok. rewrite Hsn, Hdn, Hp'. done.
Qed.

Lemma reachable_ok (self : Window) : reachable float self → window_ok self.
Proof.
  intros Hreach.
  induction Hreach as [|v self _ IH|v self _ IH|which i j text self _ IH
                       |optimize self _ IH|self _ IH].
  - apply init_window_ok.
  - destruct IH as (Hs & Hd & Hdims & Hwf & Hl & Hp). unfold change_sources.
    destruct (_ =? _)%nat; [done|].
    apply update_tables_ok; cbn; try done. by apply setValue_spin_ok.
  - destruct IH as (Hs & Hd & Hdims & Hwf & Hl & Hp). unfold change_dest.
    destruct (_ =? _)%nat; [done|].
    apply update_tables_ok; cbn; try done. by apply setValue_spin_ok.
  - destruct IH as (Hs & Hd & (Hc1 & Ho1 & Hd1 & Hr1) & (Hc2 & Ho2 & Hd2 & Hr2)
                    & Hl & Hp).
    unfold window_ok, dims_ok, tables_wf, type_cell.
    destruct which;
      cbn [widgets n_sources_spin n_dest_spin main_layout cost_table
           offre_table demande_table result_table];
      split_and!; try done;
      first [ by apply table_wf_setItem | by apply has_dims_setItem ].
  - destruct IH as (Hs & Hd & (Hc1 & Ho1 & Hd1 & Hr1) & (Hc2 & Ho2 & Hd2 & Hr2)
                    & Hl & Hp).
    destruct (solve_transport_inputs float optimize (widgets self))
      as (Ec & Eo & Ed).
    destruct (solve_transport_result_table optimize (widgets self))
      as (Er & Ec' & Hwf').
    unfold window_ok, dims_ok, tables_wf, has_dims, click_solve.
    cbn [widgets n_sources_spin n_dest_spin main_layout].
    rewrite Ec, Eo, Ed, Er, Ec'.
    split_and!; try done; first [ apply Hc1 | apply Ho1 | apply Hd1 | apply Hr1
                                | by apply Hwf' ].
  - destruct IH as (Hs & Hd & Hdims & Hwf & Hl & Hp).
    unfold window_ok. cbn [widgets n_sources_spin n_dest_spin main_layout].
    split_and!; try done.
    + intros title Ht. by apply first_group_box_process_events, Hl.
    + by rewrite process_events_idem.
Qed.

(** X18. In every state the user can reach from [__init__] (by changing
    the spin boxes, typing into the input tables, clicking [Résoudre],
    letting the event loop run) the four tables have the dimensions shown by
    the spin boxes, between 1 and 99; the supply and demand tables have the
    shape of the cost table, so [solve_transport] never pads a missing
    supply or demand; and the layout the event loop leaves is the one
    [__init__] built. *)
Theorem reachable_window_ok (self : Window) :
  reachable float self →
  window_ok self ∧
  ¬ shape_mismatch (widgets self) ∧
  (1 ≤ rowCount (cost_table (widgets self)) ≤ 99)%nat ∧
  (1 ≤ columnCount (cost_table (widgets self)) ≤ 99)%nat.
Proof.
  intros Hreach.
  pose proof (reachable_ok _ Hreach) as Hok.
  split; [done|].
  destruct Hok as ((_ & _ & Hs1 & Hs2) & (_ & _ & Hd1 & Hd2)
                   & ([Hc1 Hc2] & [Ho1 Ho2] & [Hd1' Hd2'] & _) & _).
  split; [|rewrite Hc1, Hc2; lia].
  intros [H|H]; apply H; congruence.
Qed.

(** X19. In every reachable state a successful click on [Résoudre] displays
    the whole allocation: every cell of the result table, one per source and
    destination, shows the two-decimal rendering of its shipment, and the
    label shows that of the total cost. *)
Theorem reachable_solve_displays_all optimize (self : Window)
    (cost : Q) (X : Var → Q) (i j : nat) :
  reachable float self →
  returns float optimize (widgets self) cost X →
  (i < spin_value (n_sources_spin self))%nat →
  (j < spin_value (n_dest_spin self))%nat →
  item (result_table (widgets (click_solve float optimize self))) i j =
    Some (fmt2 (X (i, j))) ∧
  result_label (widgets (click_solve float optimize self)) =
    "Coût total minimal : " +:+ fmt2 cost.
Proof.
  intros Hreach Hret Hi Hj.
  destruct (reachable_ok _ Hreach)
    as (_ & _ & ([Hc1 Hc2] & _ & _ & [Hr1 Hr2]) & _).
  cbn [click_solve widgets]. split.
  - apply (item_solved_result float optimize _ cost); [done|lia|lia|].
    unfold in_range. rewrite Hr1, Hr2.
    by rewrite (proj2 (Nat.ltb_lt _ _) Hi), (proj2 (Nat.ltb_lt _ _) Hj).
  - by destruct Hret as (m & _ & _ & _ & ->).
Qed.

End Reachable.

(** ** Typing, resizing and reading *)

Lemma mapM_ext {A B : Type} (f g : A → result B) (l : list A) :
  (∀ a, a ∈ l → f a = g a) → mapM f l = mapM g l.
Proof.
  induction l as [|a l IH]; intros H; [done|].
  rewrite !mapM_cons, (H a), IH; [done| |by left].
  intros b Hb. apply H. by right.
Qed.

Section Typing.

Variable float : string → option Q.

Lemma read_cell_item (t t' : QTableWidget) (i j i' j' : nat) :
  item t i j = item t' i' j' → read_cell float t i j = read_cell float t' i' j'.
Proof. unfold read_cell. by intros ->. Qed.

Lemma read_table_item (t t' : QTableWidget) (rows cols : nat) :
  (∀ i j, (i < rows)%nat → (j < cols)%nat → item t i j = item t' i j) →
  _read_table float t rows cols = _read_table float t' rows cols.
Proof.
  intros H. unfold _read_table. apply mapM_ext. intros i Hi%elem_of_seq.
  apply mapM_ext. intros j Hj%elem_of_seq. apply read_cell_item, H; lia.
Qed.

(** X20. Resizing changes no number that is read: [_read_table] returns on
    each resized input table what it returns on the table before
    [update_tables], read at the new dimensions. *)
Theorem update_tables_reads_same (self : Window) :
  tables_wf self →
  _read_table float (cost_table (widgets (update_tables self)))
      (spin_value (n_sources_spin self)) (spin_value (n_dest_spin self)) =
    _read_table float (cost_table (widgets self))
      (spin_value (n_sources_spin self)) (spin_value (n_dest_spin self)) ∧
  _read_table float (offre_table (widgets (update_tables self)))
      (spin_value (n_sources_spin self)) 1 =
    _read_table float (offre_table (widgets self))
      (spin_value (n_sources_spin self)) 1 ∧
  _read_table float (demande_table (widgets (update_tables self)))
      1 (spin_value (n_dest_spin self)) =
    _read_table float (demande_table (widgets self))
      1 (spin_value (n_dest_spin self)).
Proof.
  intros (Hc & Ho & Hd & _). cbn [update_tables _setup_table widgets cost_table
    offre_table demande_table].
  split_and!; apply read_table_item; intros i j Hi Hj;
    rewrite item_resize by done;
    by rewrite (proj2 (Nat.ltb_lt _ _) Hi), (proj2 (Nat.ltb_lt _ _) Hj).
Qed.

Lemma read_cell_setItem_eq (t : QTableWidget) (i j : nat) (text : string) :
  in_range t i j = true → text ≠ "" →
  read_cell float (setItem t i j text) i j =
  match float text with
  | Some v => Ok v
  | None => Raise (ValueError text)
  end.
Proof.
  intros Hin Hne. unfold read_cell.
  rewrite item_setItem, bool_decide_eq_true_2 by (by apply place_in_range).
  by rewrite bool_decide_eq_false_2.
Qed.

Lemma read_cell_setItem_ne (t : QTableWidget) (i j i' j' : nat) (text : string) :
  in_range t i j = true → (i, j) ≠ (i', j') →
  read_cell float (setItem t i j text) i' j' = read_cell float t i' j'.
Proof.
  intros Hin Hne. apply read_cell_item.
  rewrite item_setItem, bool_decide_eq_false_2; [done|].
  rewrite (place_in_range _ _ _ Hin). congruence.
Qed.

(** X21. What is typed is what is read.  After a non-empty text is put into
    a cell of the grid of a table that could be read, [_read_table] returns
    the same matrix with the number [float] makes of the text at that place,
    and raises the [ValueError] of that text when [float] rejects it. *)
Theorem typed_cell_is_read (t : QTableWidget) (rows cols i j : nat)
    (text : string) (data : list (list Q)) :
  _read_table float t rows cols = Ok data →
  in_range t i j = true → (i < rows)%nat → (j < cols)%nat → text ≠ "" →
  _read_table float (setItem t i j text) rows cols =
  match float text with
  | Some v => Ok (alter (<[j := v]>) i data)
  | None => Raise (ValueError text)
  end.
Proof.
  intros Hdata Hin Hi Hj Hne.
  pose proof (read_cell_setItem_eq t i j text Hin Hne) as Hcell.
  pose proof Hdata as [Hlen Hrows]%read_table_Ok.
  destruct (float text) as [v|] eqn:Hf.
  - apply read_table_Ok. split; [by rewrite length_alter|].
    intros i' Hi'. destruct (Hrows i' Hi') as (row & Hrow & Hrlen & Hcells).
    destruct (decide (i = i')) as [<-|Hii].
    + exists (<[j := v]> row). split; [by rewrite list_lookup_alter_eq, Hrow|].
      split; [by rewrite length_insert|].
      intros j' Hj'. destruct (decide (j = j')) as [<-|Hjj].
      * exists v. split; [|done]. apply list_lookup_insert_eq. lia.
      * destruct (Hcells j' Hj') as (v' & Hv' & Hread). exists v'.
        split; [by rewrite list_lookup_insert_ne|].
        rewrite read_cell_setItem_ne; [done|done|congruence].
    + exists row. split; [by rewrite list_lookup_alter_ne|]. split; [done|].
      intros j' Hj'. destruct (Hcells j' Hj') as (v' & Hv' & Hread). exists v'.
      split; [done|]. rewrite read_cell_setItem_ne; [done|done|congruence].
  - unfold _read_table. apply mapM_range_Raise. exists i. split; [done|]. split.
    + apply mapM_range_Raise. exists j. split; [done|]. split; [done|].
      intros k Hk. destruct (Hrows i Hi) as (row & _ & _ & Hcells).
      destruct (Hcells k) as (v' & _ & Hread); [lia|]. exists v'.
      rewrite read_cell_setItem_ne; [done|done|].
      intros Heq. injection Heq as <-. lia.
    + intros k Hk. destruct (Hrows k) as (row & _ & Hrlen & Hcells); [lia|].
      exists row. apply mapM_range_Ok. split; [done|].
      intros j' Hj'. destruct (Hcells j' Hj') as (v' & Hv' & Hread). exists v'.
      split; [done|]. rewrite read_cell_setItem_ne; [done|done|].
      intros Heq. injection Heq as <- <-. lia.
Qed.

End Typing.

(** ** Supplies and demands left blank *)

Section Shape.

Variable float : string → option Q.
Variable optimize : Model → Optimized.


End Shape.

(** ** A run with a supply left blank *)








(** ** Runs of the window *)

Lemma window_shrinking_wf : tables_wf window_shrinking.
Proof.
  destruct init_window_ok as (_ & _ & _ & (Hc & Ho & Hd & Hr) & _).
  unfold window_shrinking, type_cell. cbv zeta.
  cbn [widgets cost_table offre_table demande_table result_table].
  split_and!; try done. by apply table_wf_setItem.
Qed.

(** The typed cost is in row 2, which the smaller table no longer has. *)
Example window_shrinking_drops_row :
  item (cost_table (widgets window_shrinking)) 2 2 = Some "7" ∧
  item (cost_table (widgets (update_tables window_shrinking))) 2 2 = None ∧
  rowCount (cost_table (widgets (update_tables window_shrinking))) = 2%nat.
Proof. by vm_compute. Qed.

Lemma update_tables_keeps_entries_witness :
  item (cost_table (widgets (update_tables window_shrinking))) 2 2 =
    (if (2 <? spin_value (n_sources_spin window_shrinking))%nat
        && (2 <? spin_value (n_dest_spin window_shrinking))%nat
     then item (cost_table (widgets window_shrinking)) 2 2 else None) ∧
  item (offre_table (widgets (update_tables window_shrinking))) 2 2 =
    (if (2 <? spin_value (n_sources_spin window_shrinking))%nat && (2 <? 1)%nat
     then item (offre_table (widgets window_shrinking)) 2 2 else None) ∧
  item (demande_table (widgets (update_tables window_shrinking))) 2 2 =
    (if (2 <? 1)%nat && (2 <? spin_value (n_dest_spin window_shrinking))%nat
     then item (demande_table (widgets window_shrinking)) 2 2 else None) ∧
  item (result_table (widgets (update_tables window_shrinking))) 2 2 =
    (if (2 <? spin_value (n_sources_spin window_shrinking))%nat
        && (2 <? spin_value (n_dest_spin window_shrinking))%nat
     then item (result_table (widgets window_shrinking)) 2 2 else None) ∧
  result_label (widgets (update_tables window_shrinking)) =
    result_label (widgets window_shrinking).
Proof.
  apply (update_tables_keeps_entries window_shrinking 2 2).
  apply window_shrinking_wf.
Defined.

Lemma update_tables_reads_same_witness :
  _read_table dec_float (cost_table (widgets (update_tables window_shrinking)))
      (spin_value (n_sources_spin window_shrinking))
      (spin_value (n_dest_spin window_shrinking)) =
    _read_table dec_float (cost_table (widgets window_shrinking))
      (spin_value (n_sources_spin window_shrinking))
      (spin_value (n_dest_spin window_shrinking)) ∧
  _read_table dec_float (offre_table (widgets (update_tables window_shrinking)))
      (spin_value (n_sources_spin window_shrinking)) 1 =
    _read_table dec_float (offre_table (widgets window_shrinking))
      (spin_value (n_sources_spin window_shrinking)) 1 ∧
  _read_table dec_float (demande_table (widgets (update_tables window_shrinking)))
      1 (spin_value (n_dest_spin window_shrinking)) =
    _read_table dec_float (demande_table (widgets window_shrinking))
      1 (spin_value (n_dest_spin window_shrinking)).
Proof.
  apply (update_tables_reads_same dec_float window_shrinking).
  apply window_shrinking_wf.
Defined.

Lemma window_unit_reachable : reachable dec_float window_unit.
Proof. unfold window_unit. repeat constructor. Qed.

Example window_unit_widgets : widgets window_unit = app_unit.
Proof. by vm_compute. Qed.

Lemma reachable_window_ok_witness :
  window_ok window_unit ∧
  ¬ shape_mismatch (widgets window_unit) ∧
  (1 ≤ rowCount (cost_table (widgets window_unit)) ≤ 99)%nat ∧
  (1 ≤ columnCount (cost_table (widgets window_unit)) ≤ 99)%nat.
Proof.
  apply (reachable_window_ok dec_float window_unit).
  apply window_unit_reachable.
Defined.

Lemma reachable_solve_displays_all_witness :
  item (result_table
          (widgets (click_solve dec_float (answer OPTIMAL 5) window_unit))) 0 0 =
    Some (fmt2 ((λ _ : Var, 5) (0%nat, 0%nat))) ∧
  result_label (widgets (click_solve dec_float (answer OPTIMAL 5) window_unit)) =
    "Coût total minimal : " +:+ fmt2 5.
Proof.
  apply (reachable_solve_displays_all dec_float (answer OPTIMAL 5) window_unit
           5 (λ _, 5) 0 0).
  - apply window_unit_reachable.
  - rewrite window_unit_widgets. apply app_unit_returns.
  - vm_compute. lia.
  - vm_compute. lia.
Defined.

Lemma typed_cell_is_read_witness :
  _read_table dec_float (setItem sparse_table 0 1 "4") 2 2 =
  match dec_float "4" with
  | Some v => Ok (alter (<[1%nat := v]>) 0%nat [[3; 0]; [0; 0]])
  | None => Raise (ValueError "4")
  end.
Proof.
  apply (typed_cell_is_read dec_float sparse_table 2 2 0 1 "4" [[3; 0]; [0; 0]]).
  - reflexivity.
  - reflexivity.
  - lia.
  - lia.
  - discriminate.
Defined.

(** Typing 4 next to the 3, and typing something that is not a number. *)
Example typed_cell_runs :
  _read_table dec_float (setItem sparse_table 0 1 "4") 2 2 = Ok [[3; 4]; [0; 0]] ∧
  _read_table dec_float (setItem sparse_table 1 0 "n/a") 2 2
    = Raise (ValueError "n/a").
Proof. by vm_compute. Qed.

(** ** Feasibility and boundedness of the model *)

Lemma feasible_totals (n m : nat) cost supply demand (X : Var → Q) :
  feasible (model_of n m cost supply demand) X →
  sumQ (map demand (seq 0 m)) <= sumQ (map supply (seq 0 n)).
Proof.
  intros (_ & Hrow & Hcol)%feasible_model_of.
  assert (Hswap : sumQ (map (rowsum m X) (seq 0 n)) ==
                  sumQ (map (colsum n X) (seq 0 m))).
  { unfold rowsum, colsum. apply (sumQ_swap (λ i j, X (i, j))). }
  assert (HR : sumQ (map (rowsum m X) (seq 0 n)) <= sumQ (map supply (seq 0 n))).
  { apply sumQ_map_le. intros i Hi%elem_of_seq. apply Hrow. lia. }
  assert (HC : sumQ (map demand (seq 0 m)) <= sumQ (map (colsum n X) (seq 0 m))).
  { apply sumQ_map_le. intros j Hj%elem_of_seq. apply Hcol. lia. }
  lra.
Qed.

Lemma proportional_feasible (n m : nat) cost supply demand :
  (∀ i, (i < n)%nat → 0 <= supply i) →
  (∀ j, (j < m)%nat → 0 <= demand j) →
  sumQ (map demand (seq 0 m)) <= sumQ (map supply (seq 0 n)) →
  feasible (model_of n m cost supply demand) (proportional n supply demand).
Proof.
  intros Hs Hd Hle. apply feasible_model_of. unfold proportional.
  set (S := sumQ (map supply (seq 0 n))) in *.
  set (D := sumQ (map demand (seq 0 m))) in *.
  assert (HD : 0 <= D).
  { apply sumQ_nonneg. intros j Hj%elem_of_seq. apply Hd. lia. }
  destruct (Qeq_bool S 0) eqn:E.
  - apply Qeq_bool_eq in E. split_and!.
    + intros. apply Qle_refl.
    + intros i Hi. unfold rowsum. rewrite sumQ_map_zero; [by apply Hs|done].
    + intros j Hj. unfold colsum. rewrite sumQ_map_zero; [|done].
      assert (demand j <= D); [|lra].
      apply (sumQ_term_le demand).
      * intros b Hb%elem_of_seq. apply Hd. lia.
      * apply elem_of_seq. lia.
  - apply Qeq_bool_neq in E.
    assert (HS : 0 < S).
    { assert (0 <= S); [|lra]. apply sumQ_nonneg.
      intros i Hi%elem_of_seq. apply Hs. lia. }
    split_and!.
    + intros i j Hi Hj. cbn [fst snd]. apply Qmult_le_0_compat; [by apply Hd|].
      apply Qle_shift_div_l; [done|]. specialize (Hs i Hi). lra.
    + intros i Hi. unfold rowsum. cbn [fst snd].
      rewrite (sumQ_map_scale demand). fold D.
      specialize (Hs i Hi).
      assert (Hr : D / S <= 1) by (apply Qle_shift_div_r; lra).
      assert (Heq : D * (supply i / S) == supply i * (D / S)) by (field; lra).
      rewrite Heq. nra.
    + intros j Hj. unfold colsum. cbn [fst snd].
      rewrite (sumQ_map_ext _ (λ i, supply i * (demand j / S))).
      2:{ intros i _. cbn. field. lra. }
      rewrite (sumQ_map_scale supply). fold S.
      assert (Heq : S * (demand j / S) == demand j) by (field; lra).
      rewrite Heq. apply Qle_refl.
Qed.

Section Feasibility.

Variable float : string → option Q.

(** X22. With non-negative supplies and demands, the model that
    [solve_transport] builds has a feasible plan exactly when total demand
    does not exceed total supply. *)
Theorem model_feasible_iff (self : TransportApp) couts offres demandes (m : Model) :
  read_inputs float self = Ok (couts, offres, demandes) →
  lp float self = Ok m →
  (∀ i, (i < rowCount (cost_table self))%nat → 0 <= at1 offres i) →
  (∀ j, (j < columnCount (cost_table self))%nat → 0 <= at1 demandes j) →
  (∃ X, feasible m X) ↔ sumQ demandes <= sumQ offres.
Proof.
  intros Hin Hlp Hs Hd. rewrite (lp_Ok _ _ _ _ _ Hin) in Hlp. injection Hlp as <-.
  destruct (read_inputs_Ok _ _ _ _ _ Hin) as [(Ho & Hdl & _) _].
  rewrite (sumQ_at1 offres), (sumQ_at1 demandes), Ho, Hdl. split.
  - intros [X HX]. by eapply feasible_totals.
  - intros Hle. eexists. by apply proportional_feasible.
Qed.

(** X23. The model is never unbounded: every feasible plan costs at least
    what shipping the whole supply on the routes of negative cost would
    cost. *)
Theorem objective_bounded_below (self : TransportApp) couts offres demandes
    (m : Model) (X : Var → Q) :
  read_inputs float self = Ok (couts, offres, demandes) →
  lp float self = Ok m →
  feasible m X →
  cost_floor (rowCount (cost_table self)) (columnCount (cost_table self))
             (at2 couts) (at1 offres) <= objVal m X.
Proof.
  intros Hin Hlp HX. rewrite (lp_Ok _ _ _ _ _ Hin) in Hlp. injection Hlp as <-.
  rewrite objVal_model_of.
  apply feasible_model_of in HX as (Hpos & Hrow & _).
  unfold cost_floor, total_cost.
  apply sumQ_map_le. intros i Hi%elem_of_seq.
  apply sumQ_map_le. intros j Hj%elem_of_seq. cbn [fst].
  assert (Hx0 : 0 <= X (i, j)) by (apply Hpos; lia).
  assert (Hxs : X (i, j) <= at1 offres i).
  { eapply Qle_trans; [|apply Hrow; lia].
    unfold rowsum. apply (sumQ_term_le (λ j, X (i, j))).
    - intros b Hb%elem_of_seq. apply Hpos; lia.
    - apply elem_of_seq. lia. }
  destruct (Qle_bool 0 (at2 couts i j)) eqn:E.
  - apply Qle_bool_iff in E. nra.
  - assert (at2 couts i j < 0).
    { apply Qnot_le_lt. intros H%Qle_bool_iff. congruence. }
    nra.
Qed.

End Feasibility.

Lemma model_feasible_iff_witness :
  (∃ X, feasible (model_of 1 1 (at2 [[1]]) (at1 [1]) (at1 [2])) X) ↔
  sumQ [2] <= sumQ [1].
Proof.
  apply (model_feasible_iff dec_float app_infeasible [[1]] [1] [2]).
  - reflexivity.
  - apply (lp_Ok _ _ _ _ _ app_infeasible_inputs).
  - intros i Hi. cbn in Hi. destruct i; try lia. cbn. lra.
  - intros j Hj. cbn in Hj. destruct j; try lia. cbn. lra.
Defined.

Lemma objective_bounded_below_witness :
  cost_floor (rowCount (cost_table app_neg)) (columnCount (cost_table app_neg))
             (at2 [[-1]]) (at1 [10]) <=
  objVal (model_of 1 1 (at2 [[-1]]) (at1 [10]) (at1 [5])) (λ _, 10).
Proof.
  apply (objective_bounded_below dec_float app_neg [[-1]] [10] [5]).
  - reflexivity.
  - apply (lp_Ok _ _ _ _ _ app_neg_inputs).
  - apply (app_neg_sound _ (lp_Ok _ _ _ _ _ app_neg_inputs) (λ _, 10) eq_refl).
Defined.
